(** * Crossword CSP solver: a shallow embedding of [generate.py]

    The development follows the class [CrosswordCreator]: the domain store
    [self.domains], node consistency, [revise], [ac3], the consistency check,
    the two heuristics and the backtracking search.

    Modelling conventions.
    - A Python [set] is a duplicate-free list, read in iteration order;
      [remove] raises [KeyError] on an absent element, [add] of a new
      element puts it last, and [pop] takes the first element. Python fixes
      no iteration order for a set: statements about the contents of a
      domain do not depend on the order, the flag returned by [revise] does.
    - A Python [dict] that is only indexed ([self.domains]) is a [gmap]; a
      dict that is also iterated (the assignment) is an association list in
      insertion order.
    - A word is a [string]; indexing past its end raises [IndexError].
    - The [crossword] module is not part of the sources: the [Crossword]
      object is a record of what the solver reads from it, and what that
      module guarantees is the predicate [wf_crossword].
    - Exceptions are explicit: every operation that can raise returns an
      [outcome]; the domain store is threaded through a state monad and
      survives a raise, as the attribute of [self] does.
    - The [while] loop of [ac3] and the recursion of [backtrack] take fuel;
      running out of fuel is an outcome of its own, never a result. *)

From stdpp Require Import base option list strings gmap sorting.
From Stdlib Require Import Lia.

Local Open Scope string_scope.
Local Open Scope list_scope.
Local Open Scope nat_scope.

(** ** Data model *)

Inductive direction := ACROSS | DOWN.

(** Modelled from the spec: the class [Variable] of the [crossword] module,
    a grid slot with start row, start column, direction and length. *)
Record Var := mkVar {
  var_i : nat;
  var_j : nat;
  var_direction : direction;
  var_length : nat
}.

Global Instance direction_eq_dec : EqDecision direction.
Proof. solve_decision. Defined.

Global Instance direction_countable : Countable direction.
Proof.
  refine (inj_countable' (λ d, match d with ACROSS => true | DOWN => false end)
                         (λ b : bool, if b then ACROSS else DOWN) _).
  by intros [].
Defined.

Global Instance Var_eq_dec : EqDecision Var.
Proof. solve_decision. Defined.

Global Instance Var_countable : Countable Var.
Proof.
  refine (inj_countable'
            (λ v, (var_i v, var_j v, var_direction v, var_length v))
            (λ t, match t with (a, b, d, n) => mkVar a b d n end) _).
  by intros [].
Defined.

(** Modelled from the spec: the [Crossword] object handed to the solver.
    It exposes the set of variables, the word list, the overlap lookup
    ([None] when two variables do not cross) and the neighbor lookup. *)
Record Crossword := mkCrossword {
  variables : list Var;
  words : list string;
  overlaps : Var → Var → option (nat * nat);
  neighbors : Var → list Var
}.

(** An arc [(x, y)] of the AC-3 queue. *)
Abbreviation Arc := (Var * Var)%type.

(** [self.domains]. *)
Abbreviation Domains := (gmap Var (list string)).

(** The assignment dictionary, in insertion order. *)
Abbreviation Assignment := (list (Var * string)).

(** ** Exceptions and the state monad of [self.domains] *)

Inductive exn := KeyError | IndexError | TypeError | UnboundLocalError.

Inductive outcome (A : Type) :=
  | Return (a : A)
  | Raise (e : exn)
  | OutOfFuel.
Arguments Return {A} a.
Arguments Raise {A} e.
Arguments OutOfFuel {A}.

Definition M (A : Type) : Type := Domains → outcome A * Domains.

Definition ret {A} (a : A) : M A := λ st, (Return a, st).

Definition raise {A} (e : exn) : M A := λ st, (Raise e, st).

Definition bind {A B} (m : M A) (k : A → M B) : M B :=
  λ st, match m st with
        | (Return a, st') => k a st'
        | (Raise e, st') => (Raise e, st')
        | (OutOfFuel, st') => (OutOfFuel, st')
        end.

Definition lift {A} (o : outcome A) : M A := λ st, (o, st).

Declare Scope csp_scope.
Delimit Scope csp_scope with csp.
Notation "x <- m ;; k" := (bind m (λ x, k))
  (at level 100, m at next level, right associativity) : csp_scope.
Notation "m ;;; k" := (bind m (λ _, k))
  (at level 100, right associativity) : csp_scope.
Local Open Scope csp_scope.

(** ** Python containers *)

Module PySet.

(** [x in s] *)
Definition mem (v : string) (s : list string) : bool :=
  bool_decide (v ∈ s).

(** [s.remove(v)]: [None] stands for [KeyError]. *)
Definition remove (v : string) (s : list string) : option (list string) :=
  if mem v s then Some (filter (λ w, w ≠ v) s) else None.

(** [s.add(v)] *)
Definition add (v : string) (s : list string) : list string :=
  if mem v s then s else s ++ [v].

End PySet.

Module PyDict.

(** [k in d] *)
Definition mem (k : Var) (d : Assignment) : bool :=
  bool_decide (k ∈ d.*1).

(** [d[k]]: [None] stands for [KeyError]. *)
Fixpoint get (k : Var) (d : Assignment) : option string :=
  match d with
  | [] => None
  | (k', v) :: d' => if decide (k' = k) then Some v else get k d'
  end.

(** [d[k] = v]: an existing key keeps its place, a new key goes last. *)
Fixpoint set (k : Var) (v : string) (d : Assignment) : Assignment :=
  match d with
  | [] => [(k, v)]
  | (k', v') :: d' =>
      if decide (k' = k) then (k, v) :: d' else (k', v') :: set k v d'
  end.

(** [d.pop(k)]: [None] stands for [KeyError]. *)
Fixpoint pop (k : Var) (d : Assignment) : option Assignment :=
  match d with
  | [] => None
  | (k', v') :: d' =>
      if decide (k' = k) then Some d'
      else match pop k d' with
           | Some d'' => Some ((k', v') :: d'')
           | None => None
           end
  end.

(** [set(d)], the keys *)
Definition keys (d : Assignment) : list Var := d.*1.

End PyDict.

(** [s[i]] on a string: [None] stands for [IndexError]. *)
Definition char_at (s : string) (i : nat) : option Ascii.ascii := String.get i s.

(** [a[overlap[0]] == b[overlap[1]]]: subscripting [None] raises
    [TypeError], an index past the end of a string raises [IndexError]. *)
Definition overlap_agree (overlap : option (nat * nat)) (a b : string)
    : outcome bool :=
  match overlap with
  | None => Raise TypeError
  | Some (i, j) =>
      match char_at a i with
      | None => Raise IndexError
      | Some ca =>
          match char_at b j with
          | None => Raise IndexError
          | Some cb => Return (bool_decide (ca = cb))
          end
      end
  end.

(** [s - t] on sets of variables, in the order of [s]. *)
Definition set_minus (s t : list Var) : list Var :=
  filter (λ v, v ∉ t) s.

(** [if arc not in arcs: arcs.append(arc)] *)
Definition append_new (arcs : list Arc) (arc : Arc) : list Arc :=
  if bool_decide (arc ∈ arcs) then arcs else arcs ++ [arc].

(** [queue.pop()]: the last element and the rest. *)
Fixpoint list_pop {A} (l : list A) : option (A * list A) :=
  match l with
  | [] => None
  | a :: l' =>
      match list_pop l' with
      | None => Some (a, [])
      | Some (b, l'') => Some (b, a :: l'')
      end
  end.

(** ** Accessors of [self.domains] *)

(** [self.domains[x]] *)
Definition get_domain (x : Var) : M (list string) :=
  λ st, match st !! x with
        | Some d => (Return d, st)
        | None => (Raise KeyError, st)
        end.

(** [self.domains[x].remove(v)] *)
Definition domain_remove (x : Var) (v : string) : M unit :=
  d <- get_domain x ;;
  match PySet.remove v d with
  | Some d' => λ st, (Return tt, <[x := d']> st)
  | None => raise KeyError
  end.

(** [self.domains[x].add(v)] *)
Definition domain_add (x : Var) (v : string) : M unit :=
  d <- get_domain x ;;
  λ st, (Return tt, <[x := PySet.add v d]> st).

(** [self.domains[x] = s] *)
Definition domain_assign (x : Var) (s : list string) : M unit :=
  λ st, (Return tt, <[x := s]> st).

(** [copy.deepcopy(self.domains)] *)
Definition snapshot : M Domains := λ st, (Return st, st).

(** [self.domains = copy.deepcopy(backup)] *)
Definition restore (backup : Domains) : M unit := λ _, (Return tt, backup).

Section CrosswordCreator.

Variable crossword : Crossword.

(** [__init__]: every variable starts with a copy of the word list. *)
Definition init_domains : Domains :=
  list_to_map ((λ var, (var, words crossword)) <$> variables crossword).

(** *** [enforce_node_consistency] *)

Fixpoint enforce_node_consistency_values (var : Var)
    (values : list string) : M unit :=
  match values with
  | [] => ret tt
  | value :: rest =>
      (if decide (String.length value ≠ var_length var)
       then domain_remove var value else ret tt) ;;;
      enforce_node_consistency_values var rest
  end.

Fixpoint enforce_node_consistency_vars (vars : list Var) : M unit :=
  match vars with
  | [] => ret tt
  | var :: rest =>
      enforce_node_consistency_values var (words crossword) ;;;
      enforce_node_consistency_vars rest
  end.

Definition enforce_node_consistency : M unit :=
  enforce_node_consistency_vars (variables crossword).

(** *** [revise] *)

(** The inner loop [for yvalue in self.domains[y]]. It is entered with
    [revised = True]; a supporting value puts [xvalue] back, clears the
    flag and breaks. *)
Fixpoint revise_support (overlap : option (nat * nat)) (x : Var)
    (xvalue : string) (yvalues : list string) (revised : bool) : M bool :=
  match yvalues with
  | [] => ret revised
  | yvalue :: rest =>
      agree <- lift (overlap_agree overlap xvalue yvalue) ;;
      if agree : bool
      then domain_add x xvalue ;;; ret false
      else revise_support overlap x xvalue rest revised
  end.

(** The outer loop [for xvalue in self.domains[x].copy()]. *)
Fixpoint revise_values (overlap : option (nat * nat)) (x y : Var)
    (xvalues : list string) (revised : bool) : M bool :=
  match xvalues with
  | [] => ret revised
  | xvalue :: rest =>
      domain_remove x xvalue ;;;
      yvalues <- get_domain y ;;
      revised' <- revise_support overlap x xvalue yvalues true ;;
      revise_values overlap x y rest revised'
  end.

Definition revise (x y : Var) : M bool :=
  let overlap := overlaps crossword x y in
  xvalues <- get_domain x ;;
  revise_values overlap x y xvalues false.

(** *** [create_arcs] *)

Definition create_arcs (var : option Var) (assignment : Assignment)
    : list Arc :=
  match var with
  | None =>
      foldl (λ arcs var,
               foldl (λ arcs neighbor, append_new arcs (var, neighbor)) arcs
                     (set_minus (neighbors crossword var)
                                (PyDict.keys assignment)))
            [] (variables crossword)
  | Some var =>
      foldl (λ arcs neighbor, append_new arcs (neighbor, var)) []
            (set_minus (neighbors crossword var) (PyDict.keys assignment))
  end.

(** *** [ac3] *)

(** The [while queue] loop; one unit of fuel per arc taken from the queue. *)
Fixpoint ac3_loop (fuel : nat) (queue : list Arc) : M bool :=
  match list_pop queue with
  | None => ret true
  | Some ((x, y), queue') =>
      match fuel with
      | 0 => lift OutOfFuel
      | S fuel' =>
          revised <- revise x y ;;
          if revised : bool then
            dx <- get_domain x ;;
            if decide (length dx = 0) then ret false
            else ac3_loop fuel'
                   (foldl (λ queue z, append_new queue (z, x)) queue'
                          (set_minus (neighbors crossword x) [y]))
          else ac3_loop fuel' queue'
      end
  end.

Definition ac3 (arcs : option (list Arc)) (fuel : nat) : M bool :=
  let queue := match arcs with
               | None => create_arcs None []
               | Some arcs => arcs
               end in
  ac3_loop fuel queue.

(** *** [assignment_complete] *)

Definition assignment_complete (assignment : Assignment) : bool :=
  bool_decide (length assignment = length (variables crossword)).

(** *** [consistent] *)

(** First loop: the value of [element] against every other key's value. *)
Definition values_distinct (assignment : Assignment) : bool :=
  forallb (λ '(element, value),
             forallb (λ '(confront, other), bool_decide (value ≠ other))
                     (filter (λ kv, kv.1 ≠ element) assignment))
          assignment.

(** Second loop: the unary constraint. *)
Definition lengths_match (assignment : Assignment) : bool :=
  forallb (λ '(element, value),
             bool_decide (String.length value = var_length element))
          assignment.

(** Third loop, for one [element]: its assigned neighbors. *)
Fixpoint neighbors_agree (assignment : Assignment) (element : Var)
    (element_value : string) (nbrs : list Var) : outcome bool :=
  match nbrs with
  | [] => Return true
  | neighbor :: rest =>
      if PyDict.mem neighbor assignment then
        match PyDict.get neighbor assignment with
        | None => Raise KeyError
        | Some neighbor_value =>
            match overlap_agree (overlaps crossword element neighbor)
                                element_value neighbor_value with
            | Return true =>
                neighbors_agree assignment element element_value rest
            | Return false => Return false
            | Raise e => Raise e
            | OutOfFuel => OutOfFuel
            end
        end
      else neighbors_agree assignment element element_value rest
  end.

Fixpoint arcs_agree (assignment : Assignment) (elements : Assignment)
    : outcome bool :=
  match elements with
  | [] => Return true
  | (element, element_value) :: rest =>
      match neighbors_agree assignment element element_value
                            (neighbors crossword element) with
      | Return true => arcs_agree assignment rest
      | other => other
      end
  end.

Definition consistent (assignment : Assignment) : outcome bool :=
  if negb (values_distinct assignment) then Return false
  else if negb (lengths_match assignment) then Return false
  else arcs_agree assignment assignment.

(** *** [order_domain_values] *)

(** [for confront in self.domains[neighbor]]: count the disagreements. *)
Fixpoint count_conflicts (overlap : option (nat * nat)) (value : string)
    (confronts : list string) (count : nat) : outcome nat :=
  match confronts with
  | [] => Return count
  | confront :: rest =>
      match overlap_agree overlap value confront with
      | Return agree =>
          count_conflicts overlap value rest
                          (if agree then count else S count)
      | Raise e => Raise e
      | OutOfFuel => OutOfFuel
      end
  end.

(** [for neighbor in neighbors_to_check] *)
Fixpoint count_ruled_out (var : Var) (value : string)
    (neighbors_to_check : list Var) (count : nat) : M nat :=
  match neighbors_to_check with
  | [] => ret count
  | neighbor :: rest =>
      let overlap := overlaps crossword var neighbor in
      confronts <- get_domain neighbor ;;
      count' <- lift (count_conflicts overlap value confronts count) ;;
      count_ruled_out var value rest count'
  end.

(** [while values: value = values.pop() ...]; the set is popped in its
    iteration order. *)
Fixpoint score_values (var : Var) (neighbors_to_check : list Var)
    (values : list string) (helper_list : list (string * nat))
    : M (list (string * nat)) :=
  match values with
  | [] => ret helper_list
  | value :: rest =>
      count <- count_ruled_out var value neighbors_to_check 0 ;;
      score_values var neighbors_to_check rest (helper_list ++ [(value, count)])
  end.

(** [helper_list.sort(key=lambda x: x[1])], a stable sort. *)
Fixpoint insert_by_count (p : string * nat) (l : list (string * nat))
    : list (string * nat) :=
  match l with
  | [] => [p]
  | q :: l' =>
      if p.2 <=? q.2 then p :: q :: l' else q :: insert_by_count p l'
  end.

Definition sort_by_count (l : list (string * nat)) : list (string * nat) :=
  foldr insert_by_count [] l.

Definition order_domain_values (var : Var) (assignment : Assignment)
    : M (list string) :=
  values <- get_domain var ;;
  let neighbors_to_check :=
    set_minus (neighbors crossword var) (PyDict.keys assignment) in
  helper_list <- score_values var neighbors_to_check values [] ;;
  ret ((sort_by_count helper_list).*1).

(** *** [select_unassigned_variable] *)

(** The loop over [self.crossword.variables]; [selected] is [None] while
    the local [selected_variable] is unbound. *)
Fixpoint select_loop (assignment : Assignment) (vars : list Var)
    (threshold : nat) (selected : option Var) : option Var :=
  match vars with
  | [] => selected
  | variable :: rest =>
      if negb (PyDict.mem variable assignment) then
        let number_of_neighbors := length (neighbors crossword variable) in
        if threshold <? number_of_neighbors
        then select_loop assignment rest number_of_neighbors (Some variable)
        else select_loop assignment rest threshold selected
      else select_loop assignment rest threshold selected
  end.

Definition select_unassigned_variable (assignment : Assignment)
    : outcome Var :=
  match select_loop assignment (variables crossword) 0 None with
  | Some selected_variable => Return selected_variable
  | None => Raise UnboundLocalError
  end.

(** *** [backtrack] *)

(** [for element in assignment: self.domains[element] = {assignment[element]}] *)
Fixpoint assign_singletons (elements : Assignment) : M unit :=
  match elements with
  | [] => ret tt
  | (element, value) :: rest =>
      domain_assign element [value] ;;; assign_singletons rest
  end.

(** The inference step taken after a successful consistency check. *)
Definition inference (fuel : nat) (var : Var) (assignment : Assignment)
    : M unit :=
  let arcs := create_arcs (Some var) assignment in
  if decide (arcs ≠ []) then
    domains_backup <- snapshot ;;
    assign_singletons assignment ;;;
    success <- ac3 (Some arcs) fuel ;;
    if success : bool then ret tt else restore domains_backup
  else ret tt.

(** The loop [for value in orderedlist]. The dictionary is one mutable
    object: the loop returns the result together with the contents of the
    dictionary when it returns. [rec] is the recursive call. *)
Fixpoint backtrack_values
    (rec : Assignment → M (option Assignment * Assignment))
    (fuel : nat) (var : Var) (values : list string) (assignment : Assignment)
    : M (option Assignment * Assignment) :=
  match values with
  | [] => ret (None, assignment)
  | value :: rest =>
      let assignment := PyDict.set var value assignment in
      ok <- lift (consistent assignment) ;;
      r <- (if ok : bool then
              inference fuel var assignment ;;;
              rec assignment
            else ret (None, assignment)) ;;
      match r with
      | (Some result, assignment) => ret (Some result, assignment)
      | (None, assignment) =>
          match PyDict.pop var assignment with
          | None => raise KeyError
          | Some assignment => backtrack_values rec fuel var rest assignment
          end
      end
  end.

Fixpoint backtrack (fuel : nat) (assignment : Assignment)
    : M (option Assignment * Assignment) :=
  match fuel with
  | 0 => lift OutOfFuel
  | S fuel' =>
      if assignment_complete assignment
      then ret (Some assignment, assignment)
      else
        var <- lift (select_unassigned_variable assignment) ;;
        orderedlist <- order_domain_values var assignment ;;
        backtrack_values (backtrack fuel') fuel' var orderedlist assignment
  end.

(** *** [solve] *)

(** The result of [ac3] is not looked at. *)
Definition solve_from (fuel : nat) : M (option Assignment) :=
  enforce_node_consistency ;;;
  ac3 None fuel ;;;
  r <- backtrack fuel [] ;;
  ret r.1.

Definition solve (fuel : nat) : outcome (option Assignment) * Domains :=
  solve_from fuel init_domains.

End CrosswordCreator.

(** ** [letter_grid] *)

(** A two-dimensional array of optional letters, as a list of rows. *)
Abbreviation Grid := (list (list (option Ascii.ascii))).

(** The cell that holds letter number [k] of [variable]. *)
Definition cell_of (variable : Var) (k : nat) : nat * nat :=
  (var_i variable + (if decide (var_direction variable = DOWN) then k else 0),
   var_j variable
   + (if decide (var_direction variable = ACROSS) then k else 0)).

(** [letters[i][j] = ch]: [None] stands for [IndexError]. *)
Definition grid_set (letters : Grid) (i j : nat) (ch : Ascii.ascii)
    : option Grid :=
  match letters !! i with
  | None => None
  | Some row =>
      if decide (j < length row)
      then Some (<[i := <[j := Some ch]> row]> letters)
      else None
  end.

(** [for k in range(len(word))]: one letter per step. *)
Fixpoint write_word (variable : Var) (word : string) (ks : list nat)
    (letters : Grid) : outcome Grid :=
  match ks with
  | [] => Return letters
  | k :: rest =>
      match char_at word k with
      | None => Raise IndexError
      | Some ch =>
          match grid_set letters (cell_of variable k).1
                         (cell_of variable k).2 ch with
          | None => Raise IndexError
          | Some letters' => write_word variable word rest letters'
          end
      end
  end.

(** [for variable, word in assignment.items()] *)
Fixpoint write_words (items : Assignment) (letters : Grid) : outcome Grid :=
  match items with
  | [] => Return letters
  | (variable, word) :: rest =>
      match write_word variable word (seq 0 (String.length word)) letters with
      | Return letters' => write_words rest letters'
      | Raise e => Raise e
      | OutOfFuel => OutOfFuel
      end
  end.

(** [letter_grid]. The [Crossword] record above carries what the solver
    reads; the width and the height of the grid, which only the rendering
    reads, are parameters here. *)
Definition letter_grid (width height : nat) (assignment : Assignment)
    : outcome Grid :=
  write_words assignment (replicate height (replicate width None)).

(** * Notions used by the properties *)

(** ** Invariants of the store and of the crossword *)

(** [within x d0 st0 st]: [st] is [st0] except at [x], where it holds a
    sublist of candidates all taken from [d0]. *)
Definition within (x : Var) (d0 : list string) (st0 st : Domains) : Prop :=
  (∀ z, z ≠ x → st !! z = st0 !! z) ∧
  (∃ d, st !! x = Some d ∧ d ⊆ d0).

(** What the [crossword] module guarantees of the object it builds: the
    variables and the words are sets, [neighbors] lists the variables that
    cross a given one, and an overlap indexes inside both slots. *)
Record wf_crossword (c : Crossword) : Prop := {
  wf_variables_NoDup : NoDup (variables c);
  wf_words_NoDup : NoDup (words c);
  wf_neighbors_variables : ∀ x y, y ∈ neighbors c x → y ∈ variables c;
  wf_neighbors_sym : ∀ x y, y ∈ neighbors c x → x ∈ neighbors c y;
  wf_neighbors_irrefl : ∀ x, x ∉ neighbors c x;
  wf_neighbors_overlap : ∀ x y, y ∈ neighbors c x →
    ∃ i j, overlaps c x y = Some (i, j) ∧ i < var_length x ∧ j < var_length y
}.

(** Every variable has a domain, which is a set of words of its length. *)
Definition store_ok (c : Crossword) (st : Domains) : Prop :=
  ∀ v, v ∈ variables c →
    ∃ d, st !! v = Some d ∧ NoDup d ∧
         Forall (λ w, String.length w = var_length v) d.

(** The letters at the overlap are equal. *)
Definition agree_at (i j : nat) (a b : string) : bool :=
  match char_at a i, char_at b j with
  | Some ca, Some cb => bool_decide (ca = cb)
  | _, _ => false
  end.

(** Some candidate of [dy] agrees with [v] at the overlap. *)
Definition supported (i j : nat) (dy : list string) (v : string) : bool :=
  existsb (agree_at i j v) dy.

(** The flag [revise] ends with: the last candidate visited decides. *)
Definition last_unsupported (i j : nat) (dy dx : list string) : bool :=
  foldl (λ _ v, negb (supported i j dy v)) false dx.

(** The number of candidates left, over all variables. *)
Definition store_size (c : Crossword) (st : Domains) : nat :=
  sum_list_with (λ v, length (default [] (st !! v))) (variables c).

(** An arc of the crossword: a variable and one of its neighbors. *)
Definition arc_ok (c : Crossword) (arc : Arc) : Prop :=
  arc.1 ∈ variables c ∧ arc.2 ∈ neighbors c arc.1.

(** Every variable of the crossword is assigned a word. *)
Definition complete (c : Crossword) (assignment : Assignment) : Prop :=
  ∀ v, v ∈ variables c → v ∈ PyDict.keys assignment.

(** The assigned words are pairwise different, each has the length of its
    variable, and two assigned neighbors agree at their overlap. *)
Definition consistent_assignment (c : Crossword) (assignment : Assignment)
    : Prop :=
  (∀ x y wx wy, (x, wx) ∈ assignment → (y, wy) ∈ assignment →
                x ≠ y → wx ≠ wy) ∧
  (∀ x wx, (x, wx) ∈ assignment → String.length wx = var_length x) ∧
  (∀ x y wx wy, (x, wx) ∈ assignment → (y, wy) ∈ assignment →
                y ∈ neighbors c x →
                ∃ i j, overlaps c x y = Some (i, j) ∧
                       agree_at i j wx wy = true).

(** ** Concrete crosswords *)

(** One slot, crossing nothing. *)
Definition slot1 : Var := mkVar 0 0 ACROSS 3.

Definition crossword1 : Crossword :=
  mkCrossword [slot1] ["CAT"] (λ _ _, None) (λ _, []).

(** Three slots: [slotX] across the top row, [slotY] down from its first
    cell, [slotZ] down from its third cell. *)
Definition slotX : Var := mkVar 0 0 ACROSS 3.
Definition slotY : Var := mkVar 0 0 DOWN 2.
Definition slotZ : Var := mkVar 0 2 DOWN 4.

Definition overlaps3 (x y : Var) : option (nat * nat) :=
  if decide (x = slotX ∧ y = slotY) then Some (0, 0)
  else if decide (x = slotY ∧ y = slotX) then Some (0, 0)
  else if decide (x = slotX ∧ y = slotZ) then Some (2, 0)
  else if decide (x = slotZ ∧ y = slotX) then Some (0, 2)
  else None.

Definition neighbors3 (x : Var) : list Var :=
  if decide (x = slotX) then [slotY; slotZ]
  else if decide (x = slotY) then [slotX]
  else if decide (x = slotZ) then [slotX]
  else [].

Definition crossword3 : Crossword :=
  mkCrossword [slotX; slotY; slotZ] ["CAT"; "DOG"; "DO"; "TOAD"; "GOAT"]
              overlaps3 neighbors3.

(** The store of [crossword3] after node consistency. *)
Definition domains3 : Domains :=
  <[slotX := ["CAT"; "DOG"]]>
    (<[slotY := ["DO"]]> (<[slotZ := ["TOAD"; "GOAT"]]> ∅)).

(** Two slots of length two that share their first cell. *)
Definition slotA : Var := mkVar 0 0 ACROSS 2.
Definition slotD : Var := mkVar 0 0 DOWN 2.

Definition overlaps2 (x y : Var) : option (nat * nat) :=
  if decide (x = slotA ∧ y = slotD) then Some (0, 0)
  else if decide (x = slotD ∧ y = slotA) then Some (0, 0)
  else None.

Definition neighbors2 (x : Var) : list Var :=
  if decide (x = slotA) then [slotD]
  else if decide (x = slotD) then [slotA]
  else [].

Definition crossword2 : Crossword :=
  mkCrossword [slotA; slotD] ["AT"; "ON"] overlaps2 neighbors2.

(** The store of [crossword2] after node and arc consistency. *)
Definition domains2 : Domains :=
  <[slotA := ["AT"; "ON"]]> (<[slotD := ["AT"; "ON"]]> ∅).

(** A slot of length two and a slot of length three that share their first
    cell. *)
Definition slotB : Var := mkVar 0 0 DOWN 3.

Definition overlaps8 (x y : Var) : option (nat * nat) :=
  if decide (x = slotA ∧ y = slotB) then Some (0, 0)
  else if decide (x = slotB ∧ y = slotA) then Some (0, 0)
  else None.

Definition neighbors8 (x : Var) : list Var :=
  if decide (x = slotA) then [slotB]
  else if decide (x = slotB) then [slotA]
  else [].

Definition crossword8 : Crossword :=
  mkCrossword [slotA; slotB] ["AT"; "ON"; "CAT"] overlaps8 neighbors8.

(** The store of [crossword8] after node consistency, and after the
    propagation that follows it. *)
Definition domains8 : Domains :=
  <[slotA := ["AT"; "ON"]]> (<[slotB := ["CAT"]]> ∅).

Definition domains8_propagated : Domains :=
  <[slotA := ["AT"; "ON"]]> (<[slotB := []]> ∅).

(** ** What the specification asks of the heuristics, of propagation and
    of [solve] *)

(** Number of candidates left for [v]. *)
Definition domain_size (st : Domains) (v : Var) : nat :=
  length (default [] (st !! v)).

(** [v] is a Minimum-Remaining-Values choice: an unassigned variable with
    the fewest candidates and, among those, the most neighbors. *)
Definition mrv_choice (c : Crossword) (st : Domains) (assignment : Assignment)
    (v : Var) : Prop :=
  v ∈ variables c ∧ (v ∉ PyDict.keys assignment) ∧
  ∀ u, u ∈ variables c → u ∉ PyDict.keys assignment →
       domain_size st v ≤ domain_size st u ∧
       (domain_size st v = domain_size st u →
        length (neighbors c u) ≤ length (neighbors c v)).

(** Every candidate of every variable has a supporting candidate in the
    domain of each variable it overlaps. *)
Definition arc_consistent (c : Crossword) (st : Domains) : Prop :=
  ∀ x y i j dx dy,
    overlaps c x y = Some (i, j) →
    st !! x = Some dx → st !! y = Some dy →
    ∀ v, v ∈ dx → ∃ w, w ∈ dy ∧ agree_at i j v w = true.

(** The specification's reading of [solve]: when the propagation that
    follows node consistency fails, the answer is "no solution" and the
    search is not run. *)
Definition solve_without_search (c : Crossword) (fuel : nat)
    : outcome (option Assignment) * Domains :=
  (enforce_node_consistency c ;;;
   ok <- ac3 c None fuel ;;
   if ok : bool then r <- backtrack c fuel [] ;; ret r.1 else ret None)
    (init_domains c).

(** What a successful search hands back. *)
Definition solution (c : Crossword) (assignment : Assignment) : Prop :=
  consistent c assignment = Return true ∧
  NoDup (PyDict.keys assignment) ∧
  PyDict.keys assignment ⊆ variables c ∧
  length assignment = length (variables c).

(** ** Notions used by the further properties *)

(** [st'] holds no key and no candidate that [st] does not hold. *)
Definition shrunk (st st' : Domains) : Prop :=
  ∀ v d', st' !! v = Some d' → ∃ d, st !! v = Some d ∧ d' ⊆ d.

(** The candidates of [confronts] that differ from [value] at the
    overlap. *)
Definition disagreements (i j : nat) (value : string)
    (confronts : list string) : nat :=
  length (filter (λ w, agree_at i j value w = false) confronts).

(** The number of candidates that [value], chosen for [var], rules out in
    the domains of the neighbors of [var] that are not assigned. *)
Definition ruled_out (c : Crossword) (st : Domains) (assignment : Assignment)
    (var : Var) (value : string) : nat :=
  sum_list_with
    (λ neighbor,
       match overlaps c var neighbor with
       | Some (i, j) => disagreements i j value (default [] (st !! neighbor))
       | None => 0
       end)
    (set_minus (neighbors c var) (PyDict.keys assignment)).

(** Every candidate of every domain is a word of the list. *)
Definition listed (c : Crossword) (st : Domains) : Prop :=
  ∀ v d, st !! v = Some d → d ⊆ words c.

(** [letters[i][j]], when the cell exists. *)
Definition cell (letters : Grid) (i j : nat) : option (option Ascii.ascii) :=
  match letters !! i with
  | Some row => row !! j
  | None => None
  end.

(** [height] rows of [width] cells. *)
Definition shape (width height : nat) (letters : Grid) : Prop :=
  length letters = height ∧ Forall (λ row, length row = width) letters.

(** Some assigned word has the letter [ch] on cell [(i, j)]. *)
Definition covers (assignment : Assignment) (i j : nat) (ch : Ascii.ascii)
    : Prop :=
  ∃ variable word k,
    (variable, word) ∈ assignment ∧ char_at word k = Some ch ∧
    cell_of variable k = (i, j).

(** The grid holds on each of its cells a letter that [P] puts there, and
    nothing on the cells [P] leaves alone. *)
Definition content (width height : nat) (letters : Grid)
    (P : nat → nat → Ascii.ascii → Prop) : Prop :=
  shape width height letters ∧
  ∀ i j, i < height → j < width →
    match cell letters i j with
    | Some (Some ch) => P i j ch
    | Some None => ∀ ch, ¬ P i j ch
    | None => False
    end.

(** The grid of the solution of [crossword3], three columns by four rows. *)
Definition assignment3 : Assignment :=
  [(slotY, "DO"); (slotZ, "GOAT"); (slotX, "DOG")].

Definition grid3 : Grid :=
  Eval vm_compute in
    match letter_grid 3 4 assignment3 with
    | Return letters => letters
    | _ => []
    end.

(** * Properties *)

(** ** Running a monadic computation *)

Lemma bind_run {A B} (m : M A) (k : A → M B) st r st' :
  bind m k st = (r, st') →
  (∃ a st1, m st = (Return a, st1) ∧ k a st1 = (r, st')) ∨
  (∃ e, m st = (Raise e, st') ∧ r = Raise e) ∨
  (m st = (OutOfFuel, st') ∧ r = OutOfFuel).
Proof.
  unfold bind. destruct (m st) as [[a|e|] st1]; intros H.
  - left. eauto.
  - right. left. exists e. by simplify_eq.
  - right. right. by simplify_eq.
Qed.

Lemma bind_Return {A B} (m : M A) (k : A → M B) st a st1 :
  m st = (Return a, st1) → bind m k st = k a st1.
Proof. unfold bind. by intros ->. Qed.

(** ** [revise] touches [domains[x]] only, and only shrinks it *)

Lemma PySet_remove_subseteq v s s' :
  PySet.remove v s = Some s' → s' ⊆ s.
Proof.
  unfold PySet.remove. case_match; [|done]. intros [= <-] w.
  rewrite list_elem_of_filter. tauto.
Qed.

Lemma domain_remove_within x d0 st0 v st r st' :
  within x d0 st0 st → domain_remove x v st = (r, st') →
  within x d0 st0 st'.
Proof.
  intros [Hz (d & Hd & Hsub)]. unfold domain_remove, bind, get_domain, raise.
  rewrite Hd. destruct (PySet.remove v d) as [d'|] eqn:Hrm; intros [= <- <-].
  - split.
    + intros z Hzx. rewrite lookup_insert_ne; auto.
    + exists d'. rewrite lookup_insert_eq. split; [done|].
      etrans; [by eapply PySet_remove_subseteq|done].
  - split; eauto.
Qed.

Lemma domain_add_within x d0 st0 v st r st' :
  v ∈ d0 → within x d0 st0 st → domain_add x v st = (r, st') →
  within x d0 st0 st'.
Proof.
  intros Hv [Hz (d & Hd & Hsub)]. unfold domain_add, bind, get_domain.
  rewrite Hd. intros [= <- <-]. split.
  - intros z Hzx. rewrite lookup_insert_ne; auto.
  - exists (PySet.add v d). rewrite lookup_insert_eq. split; [done|].
    unfold PySet.add. case_match; [done|].
    intros w [?| ->%list_elem_of_singleton]%elem_of_app; auto.
Qed.

Section ReviseFrame.

Variable crossword : Crossword.

Lemma revise_support_within overlap x d0 st0 xvalue yvalues revised st r st' :
  xvalue ∈ d0 → within x d0 st0 st →
  revise_support overlap x xvalue yvalues revised st = (r, st') →
  within x d0 st0 st'.
Proof.
  intros Hv. revert st.
  induction yvalues as [|yvalue rest IH]; intros st Hw; simpl.
  - by intros [= <- <-].
  - intros [(agree & st1 & Hl & Hk)|[(e & Hl & _)|[Hl _]]]%bind_run;
      unfold lift in Hl; simplify_eq; try done.
    destruct agree; [|by eauto].
    apply bind_run in Hk as [(u & st2 & Ha & Hk)|[(e & Ha & _)|[Ha _]]].
    + unfold ret in Hk. simplify_eq. by eapply domain_add_within.
    + by eapply domain_add_within.
    + by eapply domain_add_within.
Qed.

Lemma get_domain_run x st r st' :
  get_domain x st = (r, st') →
  st' = st ∧ (r = Raise KeyError ∨ ∃ d, st !! x = Some d ∧ r = Return d).
Proof.
  unfold get_domain. destruct (st !! x) as [d|]; intros [= <- <-]; eauto.
Qed.

Lemma revise_values_within overlap x y d0 st0 xvalues revised st r st' :
  xvalues ⊆ d0 → within x d0 st0 st →
  revise_values overlap x y xvalues revised st = (r, st') →
  within x d0 st0 st'.
Proof.
  revert revised st.
  induction xvalues as [|xvalue rest IH]; intros revised st Hsub Hw; simpl.
  - by intros [= <- <-].
  - assert (xvalue ∈ d0) as Hv by (apply Hsub; left).
    assert (rest ⊆ d0) as Hrest by (intros w ?; apply Hsub; by right).
    intros [(u & st1 & Hrm & Hk)|[(e & Hrm & _)|[Hrm _]]]%bind_run;
      try by eapply domain_remove_within.
    pose proof (domain_remove_within _ _ _ _ _ _ _ Hw Hrm) as Hw1.
    apply bind_run in Hk as [(yvalues & st2 & Hg & Hk)|[(e & Hg & _)|[Hg _]]];
      apply get_domain_run in Hg as [-> Hg]; try done.
    apply bind_run in Hk as [(rv & st3 & Hs & Hk)|[(e & Hs & _)|[Hs _]]];
      try by eapply revise_support_within.
    eapply IH; [done| |done]. by eapply revise_support_within.
Qed.

(** Whatever the outcome of [revise x y], normal or exceptional, the store
    differs from the entry store at [x] only, and there by removals. *)
Lemma revise_shrinks x y st r st' :
  revise crossword x y st = (r, st') →
  (∀ z, z ≠ x → st' !! z = st !! z) ∧
  (∀ d', st' !! x = Some d' → ∃ d, st !! x = Some d ∧ d' ⊆ d).
Proof.
  unfold revise.
  intros [(d0 & st1 & Hg & Hk)|[(e & Hg & _)|[Hg _]]]%bind_run;
    apply get_domain_run in Hg as [-> Hg]; try (split; by eauto).
  destruct Hg as [|(d & Hd & [= <-])]; [done|].
  apply revise_values_within with (d0 := d0) (st0 := st) in Hk
    as [Hz (d'' & Hd'' & Hsub)].
  - split; [done|]. intros d' Hd'. exists d0. split; [done|]. by simplify_eq.
  - done.
  - split; eauto.
Qed.

End ReviseFrame.

(** ** The flag returned by [revise] *)

Section ReviseFlag.

Variable crossword : Crossword.

Lemma revise_support_flag overlap x xvalue yvalues st b st' :
  revise_support overlap x xvalue yvalues true st = (Return b, st') →
  (b = true ∧ st' = st) ∨ (b = false ∧ ∃ d, st' !! x = Some d ∧ xvalue ∈ d).
Proof.
  revert st. induction yvalues as [|yvalue rest IH]; intros st; simpl.
  - intros [= <- <-]. by left.
  - intros [(agree & st1 & Hl & Hk)|[(e & _ & ?)|[_ ?]]]%bind_run; [|done..].
    unfold lift in Hl. simplify_eq. destruct agree; [|by eauto].
    apply bind_run in Hk as [(u & st2 & Ha & Hk)|[(e & _ & ?)|[_ ?]]];
      [|done..].
    unfold ret in Hk. simplify_eq. right. split; [done|].
    unfold domain_add, bind, get_domain in Ha.
    destruct (st1 !! x) as [d|]; [|done]. simplify_eq.
    exists (PySet.add xvalue d). rewrite lookup_insert_eq. split; [done|].
    unfold PySet.add, PySet.mem. case_bool_decide; [done|].
    apply elem_of_app. right. by left.
Qed.

Lemma revise_values_flag overlap x y xvalues revised st b st' :
  revise_values overlap x y xvalues revised st = (Return b, st') →
  st' !! x = Some [] →
  (xvalues = [] ∧ b = revised ∧ st' = st) ∨ b = true.
Proof.
  revert revised st.
  induction xvalues as [|xvalue rest IH]; intros revised st; simpl.
  - intros [= <- <-] _. by left.
  - intros [(u & st1 & Hrm & Hk)|[(e & _ & ?)|[_ ?]]]%bind_run Hx; [|done..].
    apply bind_run in Hk as [(yv & st2 & Hg & Hk)|[(e & _ & ?)|[_ ?]]];
      [|done..].
    apply bind_run in Hk as [(rv & st3 & Hs & Hk)|[(e & _ & ?)|[_ ?]]];
      [|done..].
    right. destruct (IH _ _ Hk Hx) as [(-> & -> & ->)|]; [|done].
    apply revise_support_flag in Hs as [[? _]|[_ (d & Hd & Hin)]]; [done|].
    rewrite Hx in Hd. simplify_eq. by apply elem_of_nil in Hin.
Qed.

(** A call of [revise] that returns leaves [domains[x]] defined. *)
Lemma revise_Return_dom x y st b st' :
  revise crossword x y st = (Return b, st') →
  ∃ d d', st !! x = Some d ∧ st' !! x = Some d' ∧ d' ⊆ d.
Proof.
  intros Hr. pose proof (revise_shrinks _ _ _ _ _ _ Hr) as [_ Hx].
  unfold revise in Hr.
  apply bind_run in Hr as [(d0 & st1 & Hg & Hk)|[(e & _ & ?)|[_ ?]]];
    [|done..].
  apply get_domain_run in Hg as [-> [|(d & Hd & [= <-])]]; [done|].
  apply revise_values_within with (d0 := d0) (st0 := st) in Hk
    as [_ (d' & Hd' & Hsub)]; [|done|split; eauto].
  eauto.
Qed.

(** Emptying a non-empty [domains[x]] is always reported. *)
Lemma revise_emptied_true x y st b st' d :
  revise crossword x y st = (Return b, st') →
  st !! x = Some d → d ≠ [] → st' !! x = Some [] → b = true.
Proof.
  unfold revise. intros Hr Hd Hne Hx.
  apply bind_run in Hr as [(d0 & st1 & Hg & Hk)|[(e & _ & ?)|[_ ?]]];
    [|done..].
  apply get_domain_run in Hg as [-> [|(d1 & Hd1 & [= <-])]]; [done|].
  simplify_eq.
  by destruct (revise_values_flag _ _ _ _ _ _ _ _ Hk Hx) as [(-> & _)|].
Qed.

(** A reported change means [domains[x]] had a candidate to lose. *)
Lemma revise_true_nonempty x y st st' :
  revise crossword x y st = (Return true, st') →
  ∃ d, st !! x = Some d ∧ d ≠ [].
Proof.
  unfold revise. intros Hr.
  apply bind_run in Hr as [(d0 & st1 & Hg & Hk)|[(e & _ & ?)|[_ ?]]];
    [|done..].
  apply get_domain_run in Hg as [-> [|(d1 & Hd1 & [= <-])]]; [done|].
  exists d0. split; [done|]. intros ->. simpl in Hk. by injection Hk.
Qed.

End ReviseFlag.

(** ** [ac3] fails exactly when it empties a domain *)

Section Ac3Failure.

Variable crossword : Crossword.

Lemma ac3_loop_false_iff fuel queue st b st' :
  ac3_loop crossword fuel queue st = (Return b, st') →
  b = false ↔ ∃ x d, st !! x = Some d ∧ d ≠ [] ∧ st' !! x = Some [].
Proof.
  revert queue st. induction fuel as [|fuel IH]; intros queue st; simpl;
    destruct (list_pop queue) as [[[x y] queue']|].
  - done.
  - intros [= <- <-]. split; [done|]. intros (z & d & Hd & Hne & Hd').
    by simplify_eq.
  - intros [(rv & st1 & Hr & Hk)|[(e & _ & ?)|[_ ?]]]%bind_run; [|done..].
    pose proof (revise_shrinks _ _ _ _ _ _ Hr) as [Hframe Hsub].
    pose proof (revise_Return_dom _ _ _ _ _ _ Hr) as (d0 & d1 & Hd0 & Hd1 & H01).
    assert (∀ z d, st1 !! z = Some d → d ≠ [] →
                   ∃ d', st !! z = Some d' ∧ d' ≠ []) as Hback.
    { intros z d Hz Hne. destruct (decide (z = x)) as [->|Hzx].
      - exists d0. split; [done|]. assert (d = d1) as -> by congruence.
        intros ->. destruct d1 as [|w d1]; [done|].
        eapply elem_of_nil, H01. by left.
      - exists d. by rewrite <- Hframe. }
    destruct rv.
    + apply bind_run in Hk as [(dx & st2 & Hg & Hk)|[(e & _ & ?)|[_ ?]]];
        [|done..].
      apply get_domain_run in Hg as [-> [|(d & Hd & [= <-])]]; [done|].
      simplify_eq. case_decide as Hlen.
      * unfold ret in Hk. simplify_eq. split; [intros _|done].
        apply revise_true_nonempty in Hr as (d' & Hd' & Hne).
        exists x, d'. split_and!; [done..|].
        by destruct dx.
      * apply IH in Hk. rewrite Hk. split.
        -- intros (z & d & Hz & Hne & Hz').
           destruct (Hback z d Hz Hne) as (d' & ? & ?). eauto 6.
        -- intros (z & d & Hz & Hne & Hz').
           destruct (decide (z = x)) as [->|Hzx].
           ++ exists x, dx. split_and!; [done| |done]. by destruct dx.
           ++ exists z, d. by rewrite Hframe.
    + apply IH in Hk. rewrite Hk. split.
      * intros (z & d & Hz & Hne & Hz').
        destruct (Hback z d Hz Hne) as (d' & ? & ?). eauto 6.
      * intros (z & d & Hz & Hne & Hz').
        destruct (decide (z = x)) as [->|Hzx].
        -- exists x, d1. split_and!; [done| |done]. intros ->.
           by pose proof (revise_emptied_true _ _ _ _ _ _ _ Hr Hz Hne Hd1).
        -- exists z, d. by rewrite Hframe.
  - intros [= <- <-]. split; [done|]. intros (z & d & Hd & Hne & Hd').
    by simplify_eq.
Qed.

End Ac3Failure.

(** ** The assignment dictionary *)

Lemma PyDict_mem_keys k d : PyDict.mem k d = true ↔ k ∈ PyDict.keys d.
Proof. unfold PyDict.mem, PyDict.keys. apply bool_decide_eq_true. Qed.

Lemma PyDict_set_fresh k v d :
  k ∉ PyDict.keys d → PyDict.set k v d = d ++ [(k, v)].
Proof.
  unfold PyDict.keys. induction d as [|[k' v'] d IH]; simpl; [done|].
  intros Hk. apply not_elem_of_cons in Hk as [Hne Hk].
  case_decide; [congruence|]. by rewrite IH.
Qed.

Lemma PyDict_pop_fresh k v d :
  k ∉ PyDict.keys d → PyDict.pop k (d ++ [(k, v)]) = Some d.
Proof.
  unfold PyDict.keys. induction d as [|[k' v'] d IH]; simpl.
  - intros _. by case_decide.
  - intros Hk. apply not_elem_of_cons in Hk as [Hne Hk].
    case_decide; [congruence|]. by rewrite IH.
Qed.

Section Selection.

Variable crossword : Crossword.

(** Whatever [select_loop] binds is an unassigned variable of the list. *)
Lemma select_loop_unassigned assignment vars threshold selected v :
  select_loop crossword assignment vars threshold selected = Some v →
  selected = Some v ∨ (v ∈ vars ∧ v ∉ PyDict.keys assignment).
Proof.
  revert threshold selected.
  induction vars as [|variable rest IH]; intros threshold selected; simpl.
  - by left.
  - destruct (PyDict.mem variable assignment) eqn:Hmem; simpl.
    + intros [?|[? ?]]%IH; [by left|right]. split; [by right|done].
    + case_match.
      * intros [?|[? ?]]%IH; [|right; split; [by right|done]].
        simplify_eq. right. split; [by left|].
        rewrite <- PyDict_mem_keys. by rewrite Hmem.
      * intros [?|[? ?]]%IH; [by left|right]. split; [by right|done].
Qed.

Lemma select_unassigned_variable_unassigned assignment v :
  select_unassigned_variable crossword assignment = Return v →
  v ∈ variables crossword ∧ v ∉ PyDict.keys assignment.
Proof.
  unfold select_unassigned_variable. case_match eqn:Hs; [|done].
  intros [= ->]. by apply select_loop_unassigned in Hs as [|].
Qed.

End Selection.

(** ** A failed [backtrack] leaves the assignment as it found it *)

Section BacktrackRestores.

Variable crossword : Crossword.

Lemma backtrack_values_restores rec fuel var values assignment st a' st' :
  (∀ a s a1 s1, rec a s = (Return (None, a1), s1) → a1 = a) →
  var ∉ PyDict.keys assignment →
  backtrack_values crossword rec fuel var values assignment st
    = (Return (None, a'), st') →
  a' = assignment.
Proof.
  intros Hrec Hfresh. revert st.
  induction values as [|value rest IH]; intros st; simpl.
  - by intros [= <- <-].
  - rewrite PyDict_set_fresh by done.
    intros [(ok & st1 & Hc & Hk)|[(e & _ & ?)|[_ ?]]]%bind_run; [|done..].
    apply bind_run in Hk as [([res a1] & st2 & Hb & Hk)|[(e & _ & ?)|[_ ?]]];
      [|done..].
    assert (res = None → a1 = assignment ++ [(var, value)]) as Ha1.
    { intros ->. destruct ok.
      - apply bind_run in Hb as [(u & st3 & _ & Hb)|[(e & _ & ?)|[_ ?]]];
          [|done..].
        by apply Hrec in Hb.
      - unfold ret in Hb. by simplify_eq. }
    destruct res as [result|]; [done|]. rewrite Ha1 in Hk by done.
    rewrite PyDict_pop_fresh in Hk by done. by apply IH in Hk.
Qed.

Lemma backtrack_restores fuel assignment st a' st' :
  backtrack crossword fuel assignment st = (Return (None, a'), st') →
  a' = assignment.
Proof.
  revert assignment st a' st'.
  induction fuel as [|fuel IH]; intros assignment st a' st'; simpl; [done|].
  case_match; [done|].
  intros [(var & st1 & Hs & Hk)|[(e & _ & ?)|[_ ?]]]%bind_run; [|done..].
  apply bind_run in Hk as [(ol & st2 & Ho & Hk)|[(e & _ & ?)|[_ ?]]];
    [|done..].
  unfold lift in Hs. injection Hs as Hs <-.
  apply select_unassigned_variable_unassigned in Hs as [_ Hfresh].
  eapply backtrack_values_restores; [|done..]. eauto.
Qed.

End BacktrackRestores.

(** ** Well-formed crosswords and domain stores *)

Lemma char_at_lt s i : i < String.length s → is_Some (char_at s i).
Proof.
  unfold char_at. revert i. induction s as [|c s IH]; intros i; simpl; [lia|].
  destruct i as [|i]; [by eauto|]. intros ?. apply IH. lia.
Qed.

Lemma overlap_agree_bounds i j a b :
  i < String.length a → j < String.length b →
  overlap_agree (Some (i, j)) a b = Return (agree_at i j a b).
Proof.
  intros [ca Ha]%char_at_lt [cb Hb]%char_at_lt.
  unfold overlap_agree, agree_at. by rewrite Ha, Hb.
Qed.

Lemma filter_ne_fresh (v : string) (l : list string) :
  v ∉ l → filter (λ w, w ≠ v) l = l.
Proof.
  induction l as [|w l IH]; [done|]. intros [? ?]%not_elem_of_cons.
  rewrite filter_cons_True by done. by rewrite IH.
Qed.

Lemma PySet_remove_head v l : v ∉ l → PySet.remove v (v :: l) = Some l.
Proof.
  intros Hv. unfold PySet.remove, PySet.mem.
  rewrite bool_decide_eq_true_2 by left.
  rewrite filter_cons_False by (intros H; by apply H).
  by rewrite filter_ne_fresh.
Qed.

Lemma PySet_add_fresh v l : v ∉ l → PySet.add v l = l ++ [v].
Proof.
  intros Hv. unfold PySet.add, PySet.mem. by rewrite bool_decide_eq_false_2.
Qed.

Lemma get_domain_Some x st d :
  st !! x = Some d → get_domain x st = (Return d, st).
Proof. intros Hd. unfold get_domain. by rewrite Hd. Qed.

Lemma domain_remove_Some x v st d d' :
  st !! x = Some d → PySet.remove v d = Some d' →
  domain_remove x v st = (Return tt, <[x := d']> st).
Proof.
  intros Hd Hrm. unfold domain_remove.
  rewrite (bind_Return _ _ _ _ _ (get_domain_Some _ _ _ Hd)). by rewrite Hrm.
Qed.

Lemma domain_add_Some x v st d :
  st !! x = Some d →
  domain_add x v st = (Return tt, <[x := PySet.add v d]> st).
Proof.
  intros Hd. unfold domain_add.
  by rewrite (bind_Return _ _ _ _ _ (get_domain_Some _ _ _ Hd)).
Qed.

Lemma lift_run {A} (o : outcome A) st : lift o st = (o, st).
Proof. done. Qed.

Section ReviseExact.

Variable crossword : Crossword.

Lemma revise_support_exact i j x xvalue yvalues st d :
  st !! x = Some d → xvalue ∉ d → i < String.length xvalue →
  Forall (λ w, j < String.length w) yvalues →
  revise_support (Some (i, j)) x xvalue yvalues true st
  = if supported i j yvalues xvalue
    then (Return false, <[x := d ++ [xvalue]]> st)
    else (Return true, st).
Proof.
  intros Hd Hfresh Hi.
  induction 1 as [|yvalue rest Hj Hrest IH]; cbn [revise_support].
  - done.
  - cbn [supported existsb]. rewrite overlap_agree_bounds by done.
    erewrite bind_Return by apply lift_run.
    destruct (agree_at i j xvalue yvalue); cbn [orb]; [|done].
    erewrite bind_Return by by apply domain_add_Some.
    by rewrite PySet_add_fresh.
Qed.

Lemma revise_values_exact i j x y dy rest :
  x ≠ y → Forall (λ w, j < String.length w) dy →
  ∀ done st revised,
    st !! y = Some dy →
    Forall (λ v, i < String.length v) rest →
    NoDup (done ++ rest) →
    st !! x = Some (rest ++ filter (supported i j dy) done) →
    revise_values (Some (i, j)) x y rest revised st
    = (Return (foldl (λ _ v, negb (supported i j dy v)) revised rest),
       <[x := filter (supported i j dy) (done ++ rest)]> st).
Proof.
  intros Hxy Hdy.
  induction rest as [|xvalue rest IH]; intros done st revised Hy Hi Hnd Hx;
    cbn [revise_values foldl].
  - rewrite app_nil_r. simpl in Hx. by rewrite insert_id.
  - apply Forall_cons in Hi as [Hi Hrest].
    apply NoDup_app in Hnd as (Hnd1 & Hnd2 & Hnd3).
    apply NoDup_cons in Hnd3 as [Hnd3 Hnd4].
    set (d1 := rest ++ filter (supported i j dy) done).
    assert (xvalue ∉ d1) as Hfresh.
    { unfold d1. rewrite not_elem_of_app, list_elem_of_filter.
      split; [done|]. intros [_ Hin]. eapply Hnd2; [done|left]. }
    erewrite bind_Return
      by (eapply domain_remove_Some; [done|by apply PySet_remove_head]).
    erewrite bind_Return
      by (apply get_domain_Some; by rewrite lookup_insert_ne).
    erewrite (bind_Return (revise_support _ _ _ _ _)); last first.
    { erewrite revise_support_exact; [|apply lookup_insert_eq|done..].
      instantiate (1 := if supported i j dy xvalue
                        then <[x := d1 ++ [xvalue]]> (<[x := d1]> st)
                        else <[x := d1]> st).
      instantiate (1 := negb (supported i j dy xvalue)).
      by destruct (supported i j dy xvalue). }
    assert (NoDup ((done ++ [xvalue]) ++ rest)) as Hnd'.
    { rewrite <- app_assoc. simpl. apply NoDup_app. split_and!; [done..|].
      by apply NoDup_cons. }
    destruct (supported i j dy xvalue) eqn:Hsup.
    + rewrite (IH (done ++ [xvalue])); [| |done..|].
      * rewrite !insert_insert_eq. by rewrite <- app_assoc.
      * by rewrite !lookup_insert_ne.
      * rewrite lookup_insert_eq, filter_app.
        rewrite (filter_cons_True _ xvalue) by (by rewrite Hsup).
        unfold d1. by rewrite <- app_assoc.
    + rewrite (IH (done ++ [xvalue])); [| |done..|].
      * rewrite !insert_insert_eq. by rewrite <- app_assoc.
      * by rewrite !lookup_insert_ne.
      * rewrite lookup_insert_eq, filter_app.
        rewrite (filter_cons_False _ xvalue) by (rewrite Hsup; by intros []).
        by rewrite filter_nil, app_nil_r.
Qed.

(** On two different variables with an overlap inside every candidate,
    [revise] keeps exactly the supported candidates of [domains[x]] and
    returns the flag left by the last candidate visited. *)
Lemma revise_exact x y i j st dx dy :
  x ≠ y → overlaps crossword x y = Some (i, j) →
  st !! x = Some dx → st !! y = Some dy → NoDup dx →
  Forall (λ v, i < String.length v) dx →
  Forall (λ w, j < String.length w) dy →
  revise crossword x y st
  = (Return (last_unsupported i j dy dx),
     <[x := filter (supported i j dy) dx]> st).
Proof.
  intros Hxy Hov Hx Hy Hnd Hi Hj. unfold revise.
  erewrite bind_Return by by apply get_domain_Some. rewrite Hov.
  apply (revise_values_exact i j x y dy dx Hxy Hj [] st false Hy Hi Hnd).
  by rewrite filter_nil, app_nil_r.
Qed.

Lemma last_unsupported_shrinks i j dy dx :
  last_unsupported i j dy dx = true →
  length (filter (supported i j dy) dx) < length dx.
Proof.
  unfold last_unsupported. destruct dx as [|v dx _] using rev_ind; [done|].
  rewrite foldl_app. simpl. intros Hv.
  apply length_filter_lt with v; [apply elem_of_app; right; left|].
  destruct (supported i j dy v); [done|by intros []].
Qed.

End ReviseExact.

(** ** Termination of [ac3] on a well-formed crossword *)

Lemma list_pop_Some {A} (l : list A) a l' :
  list_pop l = Some (a, l') → l = l' ++ [a].
Proof.
  revert a l'. induction l as [|b l IH]; intros a l'; simpl; [done|].
  destruct (list_pop l) as [[c l'']|] eqn:Hp.
  - intros [= <- <-]. by rewrite (IH _ _ eq_refl).
  - intros [= <- <-]. destruct l as [|c l]; [done|]. simpl in Hp.
    by destruct (list_pop l) as [[? ?]|].
Qed.

Lemma list_pop_None {A} (l : list A) : list_pop l = None → l = [].
Proof.
  destruct l as [|b l]; [done|]. simpl. by destruct (list_pop l) as [[? ?]|].
Qed.

Lemma sum_list_with_insert_fresh (vars : list Var) x d' (st : Domains) :
  x ∉ vars →
  sum_list_with (λ v, length (default [] (<[x := d']> st !! v))) vars
  = sum_list_with (λ v, length (default [] (st !! v))) vars.
Proof.
  induction vars as [|v vars IH]; [done|]. intros [? ?]%not_elem_of_cons.
  simpl. rewrite lookup_insert_ne by done. by rewrite IH.
Qed.

Lemma sum_list_with_insert_le (vars : list Var) x d d' (st : Domains) :
  NoDup vars → st !! x = Some d → length d' ≤ length d →
  sum_list_with (λ v, length (default [] (<[x := d']> st !! v))) vars
  ≤ sum_list_with (λ v, length (default [] (st !! v))) vars
  ∧ (x ∈ vars → length d' < length d →
     sum_list_with (λ v, length (default [] (<[x := d']> st !! v))) vars
     < sum_list_with (λ v, length (default [] (st !! v))) vars).
Proof.
  intros Hnd Hd Hle. induction Hnd as [|v vars Hv Hnd IH]; simpl.
  - split; [done|]. by intros ?%elem_of_nil.
  - destruct (decide (v = x)) as [->|Hvx].
    + rewrite lookup_insert_eq, Hd, sum_list_with_insert_fresh by done.
      simpl. split; [lia|]. intros _ ?. lia.
    + rewrite lookup_insert_ne by done. destruct IH as [IH1 IH2].
      split; [lia|]. intros [?|?]%elem_of_cons Hlt; [done|].
      specialize (IH2 H Hlt). lia.
Qed.

Lemma Forall_filter_keep {A} (P : A → Prop) (Q : A → Prop)
    `{∀ x, Decision (Q x)} (l : list A) :
  Forall P l → Forall P (filter Q l).
Proof.
  rewrite !Forall_forall. intros Hl x [_ Hx]%list_elem_of_filter. auto.
Qed.

Section Ac3Total.

Variable crossword : Crossword.
Hypothesis Hwf : wf_crossword crossword.

(** On an arc of the crossword [revise] returns, and the store it leaves is
    the entry store with [domains[x]] filtered. *)
Lemma revise_arc st x y :
  store_ok crossword st → arc_ok crossword (x, y) →
  ∃ b dx d',
    st !! x = Some dx ∧
    revise crossword x y st = (Return b, <[x := d']> st) ∧
    d' ⊆ dx ∧ length d' ≤ length dx ∧
    (b = true → length d' < length dx) ∧
    store_ok crossword (<[x := d']> st).
Proof.
  intros Hst [Hx Hy]. simpl in Hx, Hy.
  pose proof (wf_neighbors_variables _ Hwf _ _ Hy) as Hyv.
  destruct (wf_neighbors_overlap _ Hwf _ _ Hy) as (i & j & Hov & Hi & Hj).
  destruct (Hst x Hx) as (dx & Hdx & Hndx & Hlx).
  destruct (Hst y Hyv) as (dy & Hdy & Hndy & Hly).
  assert (x ≠ y) as Hxy.
  { intros ->. by eapply wf_neighbors_irrefl. }
  exists (last_unsupported i j dy dx), dx, (filter (supported i j dy) dx).
  split_and!.
  - done.
  - apply revise_exact; try done.
    + eapply Forall_impl; [done|]. simpl. lia.
    + eapply Forall_impl; [done|]. simpl. lia.
  - intros v. rewrite list_elem_of_filter. tauto.
  - apply length_filter.
  - apply last_unsupported_shrinks.
  - intros v Hv. destruct (decide (v = x)) as [->|Hvx].
    + rewrite lookup_insert_eq. eexists. split_and!; [done| |].
      * by apply NoDup_filter.
      * by apply Forall_filter_keep.
    + rewrite lookup_insert_ne by done. by apply Hst.
Qed.

Lemma append_new_arcs_ok queue x zs :
  Forall (arc_ok crossword) queue →
  Forall (λ z, arc_ok crossword (z, x)) zs →
  Forall (arc_ok crossword) (foldl (λ queue z, append_new queue (z, x)) queue zs).
Proof.
  intros Hq Hzs. revert queue Hq.
  induction Hzs as [|z zs Hz Hzs IH]; intros queue Hq; simpl; [done|].
  apply IH. unfold append_new. case_bool_decide; [done|].
  apply Forall_app. split; [done|]. by apply Forall_singleton.
Qed.

Lemma foldl_append_new_Forall (P : Arc → Prop) (g : Var → Arc) zs :
  Forall (λ z, P (g z)) zs →
  ∀ arcs, Forall P arcs →
    Forall P (foldl (λ arcs z, append_new arcs (g z)) arcs zs).
Proof.
  induction 1 as [|z zs Hz Hzs IH]; intros arcs Harcs; simpl; [done|].
  apply IH. unfold append_new. case_bool_decide; [done|].
  apply Forall_app. split; [done|]. by apply Forall_singleton.
Qed.

(** The arcs [create_arcs()] starts from are arcs of the crossword. *)
Lemma create_arcs_all_ok :
  Forall (arc_ok crossword) (create_arcs crossword None []).
Proof.
  unfold create_arcs.
  assert (∀ vars arcs,
            vars ⊆ variables crossword → Forall (arc_ok crossword) arcs →
            Forall (arc_ok crossword)
              (foldl (λ arcs var,
                        foldl (λ arcs neighbor, append_new arcs (var, neighbor))
                              arcs
                              (set_minus (neighbors crossword var)
                                         (PyDict.keys [])))
                     arcs vars)) as Hgen.
  { induction vars as [|var vars IH]; intros arcs Hsub Harcs; simpl; [done|].
    apply IH; [set_solver|].
    apply (foldl_append_new_Forall _ (λ neighbor, (var, neighbor)));
      [|done].
    apply Forall_forall. intros z [_ Hz]%list_elem_of_filter.
    split; simpl; [|done]. apply Hsub. left. }
  by apply Hgen.
Qed.

(** The arcs [create_arcs(var, assignment)] starts from, too. *)
Lemma create_arcs_var_ok var assignment :
  var ∈ variables crossword →
  Forall (arc_ok crossword) (create_arcs crossword (Some var) assignment).
Proof.
  intros Hvar. unfold create_arcs.
  apply (foldl_append_new_Forall _ (λ neighbor, (neighbor, var))); [|done].
  apply Forall_forall. intros z [_ Hz]%list_elem_of_filter.
  split; simpl.
  - by eapply wf_neighbors_variables.
  - by apply wf_neighbors_sym.
Qed.

Lemma requeued_arcs_ok x y :
  x ∈ variables crossword →
  Forall (λ z, arc_ok crossword (z, x))
         (set_minus (neighbors crossword x) [y]).
Proof.
  intros Hx. apply Forall_forall. intros z [_ Hz]%list_elem_of_filter.
  split; simpl.
  - by eapply wf_neighbors_variables.
  - by apply wf_neighbors_sym.
Qed.

(** With enough fuel the loop returns, and what it returns does not depend
    on the fuel; the store it leaves is again well-formed, a domain that
    was empty stays empty, and a variable without neighbors keeps its
    domain. *)
Lemma ac3_loop_total n :
  ∀ m st queue,
    store_ok crossword st → store_size crossword st ≤ n →
    length queue ≤ m → Forall (arc_ok crossword) queue →
    ∃ fuel0 b st',
      (∀ fuel, fuel0 ≤ fuel →
         ac3_loop crossword fuel queue st = (Return b, st')) ∧
      store_ok crossword st' ∧
      (∀ v, st !! v = Some [] → st' !! v = Some []) ∧
      (∀ v, neighbors crossword v = [] → st' !! v = st !! v).
Proof.
  induction n as [n IHn] using lt_wf_ind.
  induction m as [|m IHm]; intros st queue Hst Hsize Hlen Hq.
  { destruct queue; [|simpl in Hlen; lia]. exists 0, true, st.
    split_and!; [|done..]. by intros []. }
  destruct (list_pop queue) as [[[x y] queue']|] eqn:Hpop; last first.
  { exists 0, true, st. split_and!; [|done..].
    intros []; simpl; by rewrite Hpop. }
  pose proof (list_pop_Some _ _ _ Hpop) as ->.
  apply Forall_app in Hq as [Hq' [Harc _]%Forall_cons].
  rewrite length_app in Hlen. simpl in Hlen.
  destruct (revise_arc st x y Hst Harc)
    as (b & dx & d' & Hdx & Hrev & Hsub & Hle & Hlt & Hst1).
  destruct Harc as [Hx Hy]. simpl in Hx, Hy.
  destruct (sum_list_with_insert_le (variables crossword) x dx d' st
              (wf_variables_NoDup _ Hwf) Hdx Hle) as [Hsz1 Hsz2].
  assert (∀ v, st !! v = Some [] → <[x := d']> st !! v = Some []) as Hempty.
  { intros v Hv. destruct (decide (v = x)) as [->|Hvx].
    - rewrite lookup_insert_eq. f_equal. simplify_eq.
      destruct d' as [|w d']; [done|].
      exfalso. eapply elem_of_nil, Hsub. by left.
    - by rewrite lookup_insert_ne. }
  assert (∀ v, neighbors crossword v = [] → <[x := d']> st !! v = st !! v)
    as Hisolated.
  { intros v Hv. rewrite lookup_insert_ne; [done|]. intros ->.
    rewrite Hv in Hy. by apply elem_of_nil in Hy. }
  destruct b.
  - destruct (decide (length d' = 0)) as [Hd'|Hd'].
    + exists 1, false, (<[x := d']> st). split_and!; [|done..].
      intros [|fuel] ?; [lia|]. simpl. rewrite Hpop.
      erewrite bind_Return by done. cbv beta iota.
      erewrite bind_Return by (apply get_domain_Some, lookup_insert_eq).
      by rewrite decide_True.
    + set (queue'' := foldl (λ queue z, append_new queue (z, x)) queue'
                            (set_minus (neighbors crossword x) [y])).
      assert (store_size crossword (<[x := d']> st) < n) as Hsz.
      { unfold store_size in *. specialize (Hsz2 Hx (Hlt eq_refl)). lia. }
      destruct (IHn _ Hsz (length queue'') (<[x := d']> st) queue'')
        as (fuel0 & b & st' & Hrun & Hst' & Hemp' & Hiso'); [done..| |].
      { apply append_new_arcs_ok; [done|]. by apply requeued_arcs_ok. }
      exists (S fuel0), b, st'. split_and!; [|done|by auto|].
      * intros [|fuel] ?; [lia|]. simpl. rewrite Hpop.
        erewrite bind_Return by done. cbv beta iota.
        erewrite bind_Return by (apply get_domain_Some, lookup_insert_eq).
        rewrite decide_False by done. apply Hrun. lia.
      * intros v Hv. by rewrite Hiso', Hisolated.
  - destruct (IHm (<[x := d']> st) queue')
      as (fuel0 & b & st' & Hrun & Hst' & Hemp' & Hiso');
      [done|unfold store_size in *; lia|lia|done|].
    exists (S fuel0), b, st'. split_and!; [|done|by auto|].
    + intros [|fuel] ?; [lia|]. simpl. rewrite Hpop.
      erewrite bind_Return by done. apply Hrun. lia.
    + intros v Hv. by rewrite Hiso', Hisolated.
Qed.

(** [ac3] terminates on every well-formed store, whatever arcs of the
    crossword it is seeded with. *)
Lemma ac3_terminates arcs st :
  store_ok crossword st →
  match arcs with
  | Some queue => Forall (arc_ok crossword) queue
  | None => True
  end →
  ∃ fuel0 b st',
    ∀ fuel, fuel0 ≤ fuel → ac3 crossword arcs fuel st = (Return b, st').
Proof.
  intros Hst Harcs. unfold ac3.
  set (queue := match arcs with
                | Some arcs => arcs
                | None => create_arcs crossword None []
                end).
  destruct (ac3_loop_total (store_size crossword st) (length queue) st queue)
    as (fuel0 & b & st' & Hrun & _); [done..| |by eauto].
  unfold queue. destruct arcs as [arcs|]; [done|].
  apply create_arcs_all_ok.
Qed.

End Ac3Total.

(** ** Node consistency on the initial store *)

Section NodeConsistency.

Variable crossword : Crossword.
Hypothesis Hwf : wf_crossword crossword.

Lemma enforce_node_consistency_values_exact var seen rest st :
  NoDup (seen ++ rest) →
  st !! var = Some (seen ++ rest) →
  enforce_node_consistency_values var rest st
  = (Return tt,
     <[var := seen ++ filter (λ w, String.length w = var_length var) rest]> st).
Proof.
  revert seen st.
  induction rest as [|value rest IH]; intros seen st Hnd Hvar; simpl.
  - by rewrite insert_id.
  - apply NoDup_app in Hnd as (Hnd1 & Hnd2 & [Hnd3 Hnd4]%NoDup_cons).
    case_decide as Hlen.
    + assert (PySet.remove value (seen ++ value :: rest) = Some (seen ++ rest))
        as Hrm.
      { unfold PySet.remove, PySet.mem.
        rewrite bool_decide_eq_true_2 by (apply elem_of_app; right; left).
        rewrite filter_app, filter_cons_False by (intros H; by apply H).
        rewrite !filter_ne_fresh; [done..|].
        intros Hin. by eapply Hnd2; [|left]. }
      erewrite bind_Return by by eapply domain_remove_Some.
      rewrite (IH seen); [| |by rewrite lookup_insert_eq].
      * rewrite insert_insert_eq. by rewrite filter_cons_False.
      * apply NoDup_app. split_and!; [done| |done].
        intros w Hw Hw'. eapply Hnd2; [done|]. by right.
    + erewrite bind_Return by done.
      rewrite (IH (seen ++ [value])).
      * rewrite filter_cons_True by done. by rewrite <- app_assoc.
      * rewrite <- app_assoc. simpl. apply NoDup_app. split_and!; [done..|].
        by apply NoDup_cons.
      * by rewrite <- app_assoc.
Qed.

Lemma enforce_node_consistency_vars_exact vars (st : Domains) :
  NoDup vars →
  (∀ v, v ∈ vars → st !! v = Some (words crossword)) →
  ∃ st',
    enforce_node_consistency_vars crossword vars st = (Return tt, st') ∧
    (∀ v, v ∈ vars →
       st' !! v = Some (filter (λ w, String.length w = var_length v)
                               (words crossword))) ∧
    (∀ v, v ∉ vars → st' !! v = st !! v).
Proof.
  intros Hnd. revert st.
  induction Hnd as [|var vars Hvar Hnd IH]; intros st Hst; simpl.
  - exists st. split_and!; [done| |done]. by intros v ?%elem_of_nil.
  - erewrite bind_Return; last first.
    { apply (enforce_node_consistency_values_exact var []); simpl.
      - apply (wf_words_NoDup _ Hwf).
      - apply Hst. left. }
    simpl.
    destruct (IH (<[var := filter (λ w, String.length w = var_length var)
                                  (words crossword)]> st))
      as (st' & Hrun & Hin & Hout).
    { intros v Hv. rewrite lookup_insert_ne; [apply Hst; by right|].
      by intros ->. }
    exists st'. split_and!; [done| |].
    + intros v [->|Hv]%elem_of_cons; [|by apply Hin].
      rewrite Hout by done. by rewrite lookup_insert_eq.
    + intros v [Hne Hv]%not_elem_of_cons. rewrite Hout by done.
      by rewrite lookup_insert_ne.
Qed.

Lemma init_domains_lookup v :
  init_domains crossword !! v
  = if decide (v ∈ variables crossword) then Some (words crossword) else None.
Proof.
  unfold init_domains. induction (variables crossword) as [|var vars IH].
  - by rewrite decide_False by apply not_elem_of_nil.
  - rewrite fmap_cons, list_to_map_cons.
    destruct (decide (var = v)) as [->|Hne].
    + rewrite lookup_insert_eq. by rewrite decide_True by left.
    + rewrite lookup_insert_ne, IH by done.
      destruct (decide (v ∈ vars)).
      * by rewrite decide_True by by right.
      * rewrite decide_False; [done|]. by intros [->|?]%elem_of_cons.
Qed.

Lemma enforce_node_consistency_init :
  ∃ st,
    enforce_node_consistency crossword (init_domains crossword)
      = (Return tt, st) ∧
    store_ok crossword st ∧
    (∀ v, is_Some (st !! v) → v ∈ variables crossword).
Proof.
  destruct (enforce_node_consistency_vars_exact
              (variables crossword) (init_domains crossword))
    as (st & Hrun & Hin & Hout).
  { apply (wf_variables_NoDup _ Hwf). }
  { intros v Hv. by rewrite init_domains_lookup, decide_True. }
  exists st. split_and!; [done| |].
  - intros v Hv. rewrite Hin by done. eexists. split_and!; [done| |].
    + apply NoDup_filter, (wf_words_NoDup _ Hwf).
    + apply Forall_forall. by intros w [? _]%list_elem_of_filter.
  - intros v Hv. destruct (decide (v ∈ variables crossword)); [done|].
    rewrite Hout, init_domains_lookup, decide_False in Hv by done.
    by destruct Hv.
Qed.

End NodeConsistency.

(** ** More fuel does not change a result *)

Lemma ac3_loop_fuel_mono c fuel fuel' queue st b st' :
  ac3_loop c fuel queue st = (Return b, st') → fuel ≤ fuel' →
  ac3_loop c fuel' queue st = (Return b, st').
Proof.
  revert fuel' queue st.
  induction fuel as [|fuel IH]; intros fuel' queue st; simpl.
  - destruct (list_pop queue) as [[[x y] queue']|] eqn:Hpop; [done|].
    intros [= <- <-] _. destruct fuel'; simpl; by rewrite Hpop.
  - destruct (list_pop queue) as [[[x y] queue']|] eqn:Hpop.
    + intros Hrun Hle. destruct fuel' as [|fuel']; [lia|]. simpl.
      rewrite Hpop.
      apply bind_run in Hrun as [(rv & st1 & Hr & Hk)|[(e & _ & ?)|[_ ?]]];
        [|done..].
      erewrite bind_Return by done. destruct rv.
      * apply bind_run in Hk as [(dx & st2 & Hg & Hk)|[(e & _ & ?)|[_ ?]]];
          [|done..].
        erewrite bind_Return by done. case_decide; [done|].
        apply IH; [done|lia].
      * apply IH; [done|lia].
    + intros [= <- <-] _. destruct fuel'; simpl; by rewrite Hpop.
Qed.

(** ** The steps of the search never raise on a well-formed crossword *)

Lemma lengths_match_Forall assignment :
  lengths_match assignment = true ↔
  Forall (λ kv, String.length kv.2 = var_length kv.1) assignment.
Proof.
  unfold lengths_match. induction assignment as [|[k v] a IH]; simpl.
  - split; [by constructor|done].
  - rewrite andb_true_iff, bool_decide_eq_true, IH, Forall_cons. done.
Qed.

Lemma PyDict_get_mem k d :
  PyDict.mem k d = true → ∃ v, PyDict.get k d = Some v ∧ (k, v) ∈ d.
Proof.
  rewrite PyDict_mem_keys. unfold PyDict.keys.
  induction d as [|[k' v'] d IH]; simpl.
  - by intros ?%elem_of_nil.
  - intros Hin. case_decide as Hk.
    + subst. exists v'. split; [done|left].
    + apply elem_of_cons in Hin as [?|Hin]; [congruence|].
      destruct (IH Hin) as (v & ? & ?). exists v. split; [done|by right].
Qed.

Section SearchSteps.

Variable crossword : Crossword.
Hypothesis Hwf : wf_crossword crossword.

Lemma select_loop_is_Some assignment vars threshold selected :
  is_Some selected ∨
  (∃ v, v ∈ vars ∧ (v ∉ PyDict.keys assignment) ∧
        threshold < length (neighbors crossword v)) →
  is_Some (select_loop crossword assignment vars threshold selected).
Proof.
  revert threshold selected.
  induction vars as [|variable rest IH]; intros threshold selected; simpl.
  - intros [?|(v & ?%elem_of_nil & _)]; done.
  - intros H. destruct (PyDict.mem variable assignment) eqn:Hmem; simpl.
    + apply IH. destruct H as [?|(v & Hv & Hfresh & Hdeg)]; [by left|right].
      apply elem_of_cons in Hv as [->|Hv]; [|by eauto].
      by apply PyDict_mem_keys in Hmem.
    + destruct (threshold <? length (neighbors crossword variable)) eqn:Hlt.
      * apply IH. left. by eexists.
      * apply IH. destruct H as [?|(v & Hv & Hfresh & Hdeg)]; [by left|right].
        apply elem_of_cons in Hv as [->|Hv]; [|by eauto].
        apply Nat.ltb_ge in Hlt. lia.
Qed.

(** An unassigned variable that has a neighbor keeps the selection from
    failing. *)
Lemma select_unassigned_variable_total assignment x0 :
  x0 ∈ variables crossword → x0 ∉ PyDict.keys assignment →
  neighbors crossword x0 ≠ [] →
  ∃ var, select_unassigned_variable crossword assignment = Return var ∧
         var ∈ variables crossword ∧ var ∉ PyDict.keys assignment.
Proof.
  intros Hx0 Hfresh Hdeg.
  destruct (select_loop_is_Some assignment (variables crossword) 0 None)
    as [var Hvar].
  { right. exists x0. split_and!; [done..|].
    destruct (neighbors crossword x0); [done|simpl; lia]. }
  exists var. unfold select_unassigned_variable. rewrite Hvar.
  split; [done|].
  by apply select_loop_unassigned in Hvar as [|].
Qed.

Lemma count_conflicts_total i j value confronts count :
  i < String.length value →
  Forall (λ w, j < String.length w) confronts →
  ∃ n, count_conflicts (Some (i, j)) value confronts count = Return n.
Proof.
  intros Hi Hj. revert count.
  induction Hj as [|confront rest Hj Hrest IH]; intros count;
    cbn [count_conflicts]; [by eauto|].
  rewrite overlap_agree_bounds by done. apply IH.
Qed.

Lemma count_ruled_out_total st var value nbrs count :
  store_ok crossword st →
  String.length value = var_length var →
  nbrs ⊆ neighbors crossword var →
  ∃ n, count_ruled_out crossword var value nbrs count st = (Return n, st).
Proof.
  intros Hst Hlen. revert count.
  induction nbrs as [|neighbor rest IH]; intros count Hsub;
    cbn [count_ruled_out]; [by eexists|].
  assert (neighbor ∈ neighbors crossword var) as Hn by (apply Hsub; left).
  destruct (wf_neighbors_overlap _ Hwf _ _ Hn) as (i & j & Hov & Hi & Hj).
  destruct (Hst neighbor) as (d & Hd & _ & Hlens);
    [by eapply wf_neighbors_variables|].
  erewrite bind_Return by by apply get_domain_Some.
  destruct (count_conflicts_total i j value d count) as [n Hn'].
  { lia. }
  { eapply Forall_impl; [done|]. simpl. lia. }
  rewrite Hov, Hn'. erewrite bind_Return by apply lift_run.
  apply IH. intros z ?. apply Hsub. by right.
Qed.

Lemma score_values_total st var nbrs values helper_list :
  store_ok crossword st →
  Forall (λ w, String.length w = var_length var) values →
  nbrs ⊆ neighbors crossword var →
  ∃ scored, score_values crossword var nbrs values helper_list st
            = (Return scored, st).
Proof.
  intros Hst Hvalues Hsub. revert helper_list.
  induction Hvalues as [|value rest Hlen Hrest IH]; intros helper_list;
    cbn [score_values]; [by eexists|].
  destruct (count_ruled_out_total st var value nbrs 0) as [n Hn]; [done..|].
  erewrite bind_Return by done. apply IH.
Qed.

(** [order_domain_values] returns without touching the store; an empty
    domain gives no candidate. *)
Lemma order_domain_values_total st var assignment :
  store_ok crossword st → var ∈ variables crossword →
  ∃ orderedlist,
    order_domain_values crossword var assignment st = (Return orderedlist, st) ∧
    (st !! var = Some [] → orderedlist = []).
Proof.
  intros Hst Hvar. destruct (Hst var Hvar) as (d & Hd & _ & Hlens).
  unfold order_domain_values.
  erewrite bind_Return by by apply get_domain_Some.
  destruct (score_values_total st var
              (set_minus (neighbors crossword var) (PyDict.keys assignment))
              d []) as [scored Hscored]; [done..| |].
  { intros z [_ ?]%list_elem_of_filter. done. }
  erewrite bind_Return by done. eexists. split; [done|].
  intros Hempty. rewrite Hd in Hempty. simplify_eq.
  cbn [score_values] in Hscored. unfold ret in Hscored. by simplify_eq.
Qed.

Lemma neighbors_agree_total assignment element element_value nbrs :
  lengths_match assignment = true →
  String.length element_value = var_length element →
  nbrs ⊆ neighbors crossword element →
  ∃ b, neighbors_agree crossword assignment element element_value nbrs
       = Return b.
Proof.
  intros Hlens Hlen.
  induction nbrs as [|neighbor rest IH]; intros Hsub;
    cbn [neighbors_agree]; [by eexists|].
  assert (rest ⊆ neighbors crossword element) as Hrest.
  { intros z ?. apply Hsub. by right. }
  destruct (PyDict.mem neighbor assignment) eqn:Hmem; [|by apply IH].
  destruct (PyDict_get_mem _ _ Hmem) as (nv & -> & Hin).
  assert (neighbor ∈ neighbors crossword element) as Hn by (apply Hsub; left).
  destruct (wf_neighbors_overlap _ Hwf _ _ Hn) as (i & j & -> & Hi & Hj).
  apply lengths_match_Forall in Hlens.
  rewrite Forall_forall in Hlens. specialize (Hlens _ Hin). simpl in Hlens.
  rewrite overlap_agree_bounds by lia.
  destruct (agree_at i j element_value nv); [by apply IH|by eexists].
Qed.

Lemma arcs_agree_total assignment elements :
  lengths_match assignment = true →
  elements ⊆ assignment →
  ∃ b, arcs_agree crossword assignment elements = Return b.
Proof.
  intros Hlens.
  induction elements as [|[element element_value] rest IH]; intros Hsub;
    cbn [arcs_agree]; [by eexists|].
  destruct (neighbors_agree_total assignment element element_value
              (neighbors crossword element)) as [b Hb]; [done| |done|].
  { pose proof (proj1 (lengths_match_Forall _) Hlens) as HF.
    rewrite Forall_forall in HF.
    apply (HF (element, element_value)), Hsub. left. }
  rewrite Hb. destruct b; [|by eexists].
  apply IH. intros z ?. apply Hsub. by right.
Qed.

(** [consistent] returns; when it says yes, every assigned word fits. *)
Lemma consistent_total assignment :
  ∃ b, consistent crossword assignment = Return b ∧
       (b = true → lengths_match assignment = true).
Proof.
  unfold consistent.
  destruct (values_distinct assignment); simpl; [|by eexists].
  destruct (lengths_match assignment) eqn:Hlens; simpl;
    [|by eexists].
  destruct (arcs_agree_total assignment assignment) as [b Hb]; [done..|].
  by exists b.
Qed.

Lemma assign_singletons_run elements st :
  ∃ st',
    assign_singletons elements st = (Return tt, st') ∧
    (∀ v, v ∉ elements.*1 → st' !! v = st !! v) ∧
    (∀ v, v ∈ elements.*1 → ∃ w, (v, w) ∈ elements ∧ st' !! v = Some [w]).
Proof.
  revert st. induction elements as [|[element value] rest IH]; intros st;
    cbn [assign_singletons].
  - exists st. split_and!; [done..|]. by intros v ?%elem_of_nil.
  - destruct (IH (<[element := [value]]> st)) as (st' & Hrun & Hout & Hin).
    exists st'. split_and!.
    + by erewrite bind_Return by done.
    + intros v [Hne Hv]%not_elem_of_cons. rewrite Hout by done.
      by rewrite lookup_insert_ne.
    + intros v Hv. destruct (decide (v ∈ rest.*1)) as [Hr|Hr].
      * destruct (Hin v Hr) as (w & ? & ?). exists w. split; [by right|done].
      * apply elem_of_cons in Hv as [->|Hv]; [|done]. exists value.
        split; [left|]. rewrite Hout by done. by rewrite lookup_insert_eq.
Qed.

End SearchSteps.

(** ** Inference returns on a well-formed crossword *)

Section Inference.

Variable crossword : Crossword.
Hypothesis Hwf : wf_crossword crossword.

(** The inference step returns with a well-formed store; the empty domain
    of an unassigned variable is still empty afterwards. *)
Lemma inference_total var assignment st :
  store_ok crossword st → var ∈ variables crossword →
  lengths_match assignment = true →
  ∃ fuel0 st',
    (∀ fuel, fuel0 ≤ fuel →
       inference crossword fuel var assignment st = (Return tt, st')) ∧
    store_ok crossword st' ∧
    (∀ v, v ∉ PyDict.keys assignment → st !! v = Some [] → st' !! v = Some []).
Proof.
  intros Hst Hvar Hlens. unfold inference.
  set (arcs := create_arcs crossword (Some var) assignment).
  case_decide as Harcs; [|exists 0, st; by split_and!].
  destruct (assign_singletons_run assignment st) as (st1 & Hrun1 & Hout & Hin).
  assert (store_ok crossword st1) as Hst1.
  { intros v Hv. destruct (decide (v ∈ assignment.*1)) as [Hk|Hk].
    - destruct (Hin v Hk) as (w & Hw & ->). eexists. split_and!; [done| |].
      + apply NoDup_singleton.
      + apply Forall_singleton. apply lengths_match_Forall in Hlens.
        rewrite Forall_forall in Hlens. apply (Hlens _ Hw).
    - rewrite Hout by done. by apply Hst. }
  destruct (ac3_loop_total crossword Hwf (store_size crossword st1)
              (length arcs) st1 arcs)
    as (fuel0 & b & st2 & Hrun2 & Hst2 & Hemp & _); [done..| |].
  { by apply create_arcs_var_ok. }
  exists fuel0, (if b then st2 else st). split_and!.
  - intros fuel Hfuel.
    erewrite (bind_Return snapshot) by done.
    erewrite bind_Return by done.
    erewrite bind_Return by (unfold ac3; by apply Hrun2).
    by destruct b.
  - by destruct b.
  - intros v Hv Hempty. destruct b; [|done]. apply Hemp.
    by rewrite Hout.
Qed.

End Inference.

(** ** A variable with an empty domain and a neighbor: the search fails *)

Section DeadEnd.

Variable crossword : Crossword.
Hypothesis Hwf : wf_crossword crossword.
Variable x0 : Var.
Hypothesis Hx0 : x0 ∈ variables crossword.
Hypothesis Hdeg : neighbors crossword x0 ≠ [].

Lemma backtrack_values_dead var assignment :
  var ∈ variables crossword → var ∉ PyDict.keys assignment → var ≠ x0 →
  x0 ∉ PyDict.keys assignment →
  (∀ value st1,
     store_ok crossword st1 → st1 !! x0 = Some [] →
     ∃ fuel0 st2,
       (∀ fuel, fuel0 ≤ fuel →
          backtrack crossword fuel (assignment ++ [(var, value)]) st1
          = (Return (None, assignment ++ [(var, value)]), st2)) ∧
       store_ok crossword st2 ∧ st2 !! x0 = Some []) →
  ∀ values st,
    store_ok crossword st → st !! x0 = Some [] →
    ∃ fuel0 st',
      (∀ fuel, fuel0 ≤ fuel →
         backtrack_values crossword (backtrack crossword fuel) fuel var
                          values assignment st
         = (Return (None, assignment), st')) ∧
      store_ok crossword st' ∧ st' !! x0 = Some [].
Proof.
  intros Hvar Hfresh Hne Hx0fresh Hrec.
  induction values as [|value rest IH]; intros st Hst Hempty.
  { exists 0, st. by split_and!. }
  set (a1 := assignment ++ [(var, value)]).
  assert (x0 ∉ PyDict.keys a1) as Hx0a1.
  { unfold a1, PyDict.keys. rewrite fmap_app, not_elem_of_app. split; [done|].
    simpl. by intros ->%list_elem_of_singleton. }
  destruct (consistent_total crossword Hwf a1) as (ok & Hok & Hlens).
  destruct ok.
  - destruct (inference_total crossword Hwf var a1 st Hst Hvar (Hlens eq_refl))
      as (f1 & st1 & Hrun1 & Hst1 & Hemp1).
    destruct (Hrec value st1 Hst1 (Hemp1 _ Hx0a1 Hempty))
      as (f2 & st2 & Hrun2 & Hst2 & Hemp2).
    destruct (IH st2 Hst2 Hemp2) as (f3 & st3 & Hrun3 & Hst3 & Hemp3).
    exists (f1 `max` (f2 `max` f3)), st3. split_and!; [|done..].
    intros fuel Hfuel. cbn [backtrack_values].
    rewrite PyDict_set_fresh by done. fold a1.
    erewrite bind_Return by (rewrite Hok; apply lift_run). cbv beta iota.
    erewrite bind_Return; last first.
    { erewrite bind_Return by (apply Hrun1; lia). apply Hrun2. lia. }
    cbv beta iota. subst a1. rewrite PyDict_pop_fresh by done.
    apply Hrun3. lia.
  - destruct (IH st Hst Hempty) as (f3 & st3 & Hrun3 & Hst3 & Hemp3).
    exists f3, st3. split_and!; [|done..].
    intros fuel Hfuel. cbn [backtrack_values].
    rewrite PyDict_set_fresh by done. fold a1.
    erewrite bind_Return by (rewrite Hok; apply lift_run). cbv beta iota.
    erewrite bind_Return by done.
    cbv beta iota. subst a1. rewrite PyDict_pop_fresh by done.
    by apply Hrun3.
Qed.

Lemma backtrack_dead k :
  ∀ assignment st,
    length (variables crossword) ≤ length assignment + k →
    NoDup (PyDict.keys assignment) →
    PyDict.keys assignment ⊆ variables crossword →
    x0 ∉ PyDict.keys assignment →
    store_ok crossword st → st !! x0 = Some [] →
    ∃ fuel0 st',
      (∀ fuel, fuel0 ≤ fuel →
         backtrack crossword fuel assignment st
         = (Return (None, assignment), st')) ∧
      store_ok crossword st' ∧ st' !! x0 = Some [].
Proof.
  induction k as [|k IHk];
    intros assignment st Hk Hnd Hsub Hfresh Hst Hempty.
  - exfalso.
    assert (x0 :: PyDict.keys assignment ⊆+ variables crossword) as Hle.
    { apply NoDup_submseteq; [by apply NoDup_cons|].
      intros v [->|?]%elem_of_cons; auto. }
    apply submseteq_length in Hle. unfold PyDict.keys in Hle.
    simpl in Hle. rewrite length_fmap in Hle. lia.
  - assert (assignment_complete crossword assignment = false) as Hinc.
    { unfold assignment_complete. apply bool_decide_eq_false.
      assert (x0 :: PyDict.keys assignment ⊆+ variables crossword) as Hle.
      { apply NoDup_submseteq; [by apply NoDup_cons|].
        intros v [->|?]%elem_of_cons; auto. }
      apply submseteq_length in Hle. unfold PyDict.keys in Hle.
      simpl in Hle. rewrite length_fmap in Hle. lia. }
    destruct (select_unassigned_variable_total crossword assignment x0)
      as (var & Hsel & Hvar & Hvfresh); [done..|].
    destruct (order_domain_values_total crossword Hwf st var assignment)
      as (orderedlist & Hord & Hnil); [done..|].
    destruct (decide (var = x0)) as [->|Hne].
    + rewrite (Hnil Hempty) in Hord. exists 1, st. split_and!; [|done..].
      intros [|fuel] ?; [lia|]. cbn [backtrack]. rewrite Hinc.
      erewrite bind_Return by (rewrite Hsel; apply lift_run).
      by erewrite bind_Return by done.
    + destruct (backtrack_values_dead var assignment Hvar Hvfresh Hne Hfresh)
        with (values := orderedlist) (st := st)
        as (fuel0 & st' & Hrun & Hst' & Hemp'); [|done..|].
      { intros value st1 Hst1 Hemp1. apply IHk; [| | | |done..].
        - rewrite length_app. simpl. lia.
        - unfold PyDict.keys. rewrite fmap_app. simpl. apply NoDup_app.
          split_and!; [done| |apply NoDup_singleton].
          intros v Hv ->%list_elem_of_singleton. done.
        - unfold PyDict.keys. rewrite fmap_app. simpl.
          intros v [?| ->%list_elem_of_singleton]%elem_of_app; auto.
        - unfold PyDict.keys. rewrite fmap_app, not_elem_of_app.
          split; [done|]. simpl. by intros ->%list_elem_of_singleton. }
      exists (S fuel0), st'. split_and!; [|done..].
      intros [|fuel] ?; [lia|]. cbn [backtrack]. rewrite Hinc.
      erewrite bind_Return by (rewrite Hsel; apply lift_run).
      erewrite bind_Return by done. apply Hrun. lia.
Qed.

End DeadEnd.

(** ** What [solve] returns is a solution *)

Lemma forallb_elem_of {A} (f : A → bool) (l : list A) x :
  forallb f l = true → x ∈ l → f x = true.
Proof.
  induction l as [|a l IH]; simpl; [by intros _ ?%elem_of_nil|].
  intros [? ?]%andb_true_iff [->|?]%elem_of_cons; auto.
Qed.

Lemma PyDict_get_elem k v d :
  NoDup (PyDict.keys d) → (k, v) ∈ d → PyDict.get k d = Some v.
Proof.
  unfold PyDict.keys. induction d as [|[k' v'] d IH]; simpl.
  - by intros _ ?%elem_of_nil.
  - intros [Hfresh Hnd]%NoDup_cons [[= -> ->]|Hin]%elem_of_cons.
    + by rewrite decide_True.
    + rewrite decide_False; [by apply IH|]. intros ->. apply Hfresh.
      apply list_elem_of_fmap. by exists (k, v).
Qed.

Lemma overlap_agree_true overlap a b :
  overlap_agree overlap a b = Return true →
  ∃ i j, overlap = Some (i, j) ∧ agree_at i j a b = true.
Proof.
  unfold overlap_agree. destruct overlap as [[i j]|]; [|done].
  destruct (char_at a i) as [ca|] eqn:Ha; [|done].
  destruct (char_at b j) as [cb|] eqn:Hb; [|done].
  intros [= H]. exists i, j. split; [done|].
  unfold agree_at. by rewrite Ha, Hb.
Qed.

Section Soundness.

Variable crossword : Crossword.

Lemma neighbors_agree_true assignment element element_value nbrs y wy :
  NoDup (PyDict.keys assignment) →
  neighbors_agree crossword assignment element element_value nbrs
  = Return true →
  y ∈ nbrs → (y, wy) ∈ assignment →
  ∃ i j, overlaps crossword element y = Some (i, j) ∧
         agree_at i j element_value wy = true.
Proof.
  intros Hnd. induction nbrs as [|neighbor rest IH]; cbn [neighbors_agree].
  - by intros _ ?%elem_of_nil.
  - intros Hrun Hy Hwy.
    destruct (PyDict.mem neighbor assignment) eqn:Hmem.
    + destruct (PyDict.get neighbor assignment) as [nv|] eqn:Hget; [|done].
      destruct (overlap_agree (overlaps crossword element neighbor)
                              element_value nv) as [[]| |] eqn:Hag;
        try done.
      apply elem_of_cons in Hy as [->|Hy]; [|by apply IH].
      rewrite (PyDict_get_elem _ _ _ Hnd Hwy) in Hget. simplify_eq.
      by apply overlap_agree_true.
    + apply elem_of_cons in Hy as [->|Hy]; [|by apply IH].
      apply bool_decide_eq_false in Hmem. exfalso. apply Hmem.
      apply list_elem_of_fmap. by exists (neighbor, wy).
Qed.

Lemma arcs_agree_true assignment elements x wx y wy :
  NoDup (PyDict.keys assignment) →
  arcs_agree crossword assignment elements = Return true →
  (x, wx) ∈ elements → (y, wy) ∈ assignment →
  y ∈ neighbors crossword x →
  ∃ i j, overlaps crossword x y = Some (i, j) ∧ agree_at i j wx wy = true.
Proof.
  intros Hnd.
  induction elements as [|[element element_value] rest IH];
    cbn [arcs_agree].
  - by intros _ ?%elem_of_nil.
  - intros Hrun Hx Hy Hn.
    destruct (neighbors_agree crossword assignment element element_value
                (neighbors crossword element)) as [[]| |] eqn:Hna; try done.
    apply elem_of_cons in Hx as [[= -> ->]|Hx]; [|by apply IH].
    by eapply neighbors_agree_true.
Qed.

(** A positive answer of [consistent] means what the specification calls
    a consistent assignment. *)
Lemma consistent_true assignment :
  NoDup (PyDict.keys assignment) →
  consistent crossword assignment = Return true →
  consistent_assignment crossword assignment.
Proof.
  intros Hnd. unfold consistent.
  destruct (values_distinct assignment) eqn:Hdist; [|done].
  destruct (lengths_match assignment) eqn:Hlens; [|done]. simpl.
  intros Harcs. split_and!.
  - intros x y wx wy Hx Hy Hxy. unfold values_distinct in Hdist.
    pose proof (forallb_elem_of _ _ _ Hdist Hx) as Hrow. simpl in Hrow.
    assert ((y, wy) ∈ filter (λ kv : Var * string, kv.1 ≠ x) assignment)
      as Hy' by (apply list_elem_of_filter; split; [by simpl|done]).
    pose proof (forallb_elem_of _ _ _ Hrow Hy') as Hcell. simpl in Hcell.
    by apply bool_decide_eq_true in Hcell.
  - intros x wx Hx. apply lengths_match_Forall in Hlens.
    rewrite Forall_forall in Hlens. apply (Hlens _ Hx).
  - intros x y wx wy Hx Hy Hn. by eapply arcs_agree_true.
Qed.

Lemma backtrack_values_sound rec fuel var values assignment st r a' st' :
  (∀ a s a1 s1, rec a s = (Return (None, a1), s1) → a1 = a) →
  (∀ a s r a1 s1,
     rec a s = (Return (Some r, a1), s1) →
     consistent crossword a = Return true →
     NoDup (PyDict.keys a) → PyDict.keys a ⊆ variables crossword →
     r = a1 ∧ solution crossword r) →
  var ∈ variables crossword → var ∉ PyDict.keys assignment →
  NoDup (PyDict.keys assignment) →
  PyDict.keys assignment ⊆ variables crossword →
  backtrack_values crossword rec fuel var values assignment st
  = (Return (Some r, a'), st') →
  r = a' ∧ solution crossword r.
Proof.
  intros Hnone Hsome Hvar Hfresh Hnd Hsub. revert st.
  induction values as [|value rest IH]; intros st; cbn [backtrack_values].
  - by intros [= ].
  - rewrite PyDict_set_fresh by done.
    intros [(ok & st1 & Hc & Hk)|[(e & _ & ?)|[_ ?]]]%bind_run; [|done..].
    unfold lift in Hc. injection Hc as Hc <-.
    apply bind_run in Hk as [([res a1] & st2 & Hb & Hk)|[(e & _ & ?)|[_ ?]]];
      [|done..].
    destruct ok.
    + apply bind_run in Hb as [(u & st3 & _ & Hb)|[(e & _ & ?)|[_ ?]]];
        [|done..].
      destruct res as [result|].
      * unfold ret in Hk. injection Hk as <- <- <-.
        apply Hsome in Hb; [done..| |].
        -- unfold PyDict.keys. rewrite fmap_app. apply NoDup_app.
           split_and!; [done| |apply NoDup_singleton].
           by intros v Hv ->%list_elem_of_singleton.
        -- unfold PyDict.keys. rewrite fmap_app.
           intros v [?| ->%list_elem_of_singleton]%elem_of_app; auto.
      * apply Hnone in Hb as ->.
        rewrite PyDict_pop_fresh in Hk by done. by apply IH in Hk.
    + unfold ret in Hb. injection Hb as <- <- <-.
      rewrite PyDict_pop_fresh in Hk by done. by apply IH in Hk.
Qed.

Lemma backtrack_sound fuel assignment st r a' st' :
  backtrack crossword fuel assignment st = (Return (Some r, a'), st') →
  consistent crossword assignment = Return true →
  NoDup (PyDict.keys assignment) →
  PyDict.keys assignment ⊆ variables crossword →
  r = a' ∧ solution crossword r.
Proof.
  revert assignment st r a' st'.
  induction fuel as [|fuel IH]; intros assignment st r a' st';
    cbn [backtrack]; [done|].
  destruct (assignment_complete crossword assignment) eqn:Hcomplete.
  - intros [= <- <- <-] Hc Hnd Hsub. split; [done|].
    split_and!; [done..|]. by apply bool_decide_eq_true in Hcomplete.
  - intros [(var & st1 & Hs & Hk)|[(e & _ & ?)|[_ ?]]]%bind_run Hc Hnd Hsub;
      [|done..].
    apply bind_run in Hk as [(ol & st2 & Ho & Hk)|[(e & _ & ?)|[_ ?]]];
      [|done..].
    unfold lift in Hs. injection Hs as Hs <-.
    apply select_unassigned_variable_unassigned in Hs as [Hvar Hfresh].
    eapply backtrack_values_sound; [| |done..].
    + intros a s a1 s1. apply backtrack_restores.
    + intros a s r' a1 s1. apply IH.
Qed.

End Soundness.

(** Soundness of [solve]: an assignment returned by [solve] gives a word to
    every variable, and the words are pairwise different, of the right
    lengths, and agree wherever two slots cross. *)
Theorem solve_sound c fuel assignment st :
  solve c fuel = (Return (Some assignment), st) →
  complete c assignment ∧ consistent_assignment c assignment.
Proof.
  unfold solve, solve_from.
  intros [(u & st1 & _ & Hk)|[(e & _ & ?)|[_ ?]]]%bind_run; [|done..].
  apply bind_run in Hk as [(b & st2 & _ & Hk)|[(e & _ & ?)|[_ ?]]]; [|done..].
  apply bind_run in Hk as [([r a'] & st3 & Hb & Hk)|[(e & _ & ?)|[_ ?]]];
    [|done..].
  unfold ret in Hk. simpl in Hk. injection Hk as -> <-.
  apply backtrack_sound in Hb as [<- (Hc & Hnd & Hsub & Hlen)];
    [|done|apply NoDup_nil_2|set_solver].
  split; [|by apply consistent_true].
  assert (PyDict.keys assignment ≡ₚ variables c) as Hperm.
  { apply submseteq_length_Permutation; [by apply NoDup_submseteq|].
    unfold PyDict.keys. rewrite length_fmap. lia. }
  intros v Hv. by rewrite Hperm.
Qed.

(** ** [solve] returns when every slot crosses another *)

Section Connected.

Variable crossword : Crossword.
Hypothesis Hwf : wf_crossword crossword.
Hypothesis Hconnected :
  ∀ v, v ∈ variables crossword → neighbors crossword v ≠ [].

Lemma incomplete_unassigned assignment :
  NoDup (PyDict.keys assignment) →
  PyDict.keys assignment ⊆ variables crossword →
  assignment_complete crossword assignment = false →
  length assignment < length (variables crossword) ∧
  ∃ x0, x0 ∈ variables crossword ∧ x0 ∉ PyDict.keys assignment.
Proof.
  intros Hnd Hsub Hinc. apply bool_decide_eq_false in Hinc.
  assert (length assignment ≤ length (variables crossword)) as Hle.
  { pose proof (submseteq_length _ _ (NoDup_submseteq _ _ Hnd Hsub)) as H.
    unfold PyDict.keys in H. by rewrite length_fmap in H. }
  split; [lia|].
  destruct (decide (Forall (λ v, v ∈ PyDict.keys assignment)
                           (variables crossword))) as [Hall|Hex].
  - exfalso. rewrite Forall_forall in Hall.
    pose proof (submseteq_length _ _
                  (NoDup_submseteq _ _ (wf_variables_NoDup _ Hwf) Hall)) as H.
    unfold PyDict.keys in H. rewrite length_fmap in H. lia.
  - apply not_Forall_Exists in Hex; [|apply _].
    apply Exists_exists in Hex as (x0 & ? & ?). by exists x0.
Qed.

Lemma backtrack_values_total var assignment :
  var ∈ variables crossword → var ∉ PyDict.keys assignment →
  (∀ value st1,
     store_ok crossword st1 →
     ∃ fuel0 r st2,
       (∀ fuel, fuel0 ≤ fuel →
          backtrack crossword fuel (assignment ++ [(var, value)]) st1
          = (Return r, st2)) ∧
       store_ok crossword st2) →
  ∀ values st,
    store_ok crossword st →
    ∃ fuel0 r st',
      (∀ fuel, fuel0 ≤ fuel →
         backtrack_values crossword (backtrack crossword fuel) fuel var
                          values assignment st
         = (Return r, st')) ∧
      store_ok crossword st'.
Proof.
  intros Hvar Hfresh Hrec.
  induction values as [|value rest IH]; intros st Hst.
  { exists 0, (None, assignment), st. by split_and!. }
  set (a1 := assignment ++ [(var, value)]).
  destruct (consistent_total crossword Hwf a1) as (ok & Hok & Hlens).
  destruct ok.
  - destruct (inference_total crossword Hwf var a1 st Hst Hvar (Hlens eq_refl))
      as (f1 & st1 & Hrun1 & Hst1 & _).
    destruct (Hrec value st1 Hst1) as (f2 & [res a2] & st2 & Hrun2 & Hst2).
    destruct res as [result|].
    + exists (f1 `max` f2), (Some result, a2), st2. split; [|done].
      intros fuel Hfuel. cbn [backtrack_values].
      rewrite PyDict_set_fresh by done. fold a1.
      erewrite bind_Return by (rewrite Hok; apply lift_run). cbv beta iota.
      erewrite bind_Return; last first.
      { erewrite bind_Return by (apply Hrun1; lia). apply Hrun2. lia. }
      done.
    + pose proof (backtrack_restores _ _ _ _ _ _ (Hrun2 f2 ltac:(lia))) as ->.
      destruct (IH st2 Hst2) as (f3 & r & st3 & Hrun3 & Hst3).
      exists (f1 `max` (f2 `max` f3)), r, st3. split; [|done].
      intros fuel Hfuel. cbn [backtrack_values].
      rewrite PyDict_set_fresh by done. fold a1.
      erewrite bind_Return by (rewrite Hok; apply lift_run). cbv beta iota.
      erewrite bind_Return; last first.
      { erewrite bind_Return by (apply Hrun1; lia). apply Hrun2. lia. }
      cbv beta iota. subst a1. rewrite PyDict_pop_fresh by done.
      apply Hrun3. lia.
  - destruct (IH st Hst) as (f3 & r & st3 & Hrun3 & Hst3).
    exists f3, r, st3. split; [|done].
    intros fuel Hfuel. cbn [backtrack_values].
    rewrite PyDict_set_fresh by done. fold a1.
    erewrite bind_Return by (rewrite Hok; apply lift_run). cbv beta iota.
    erewrite bind_Return by done.
    cbv beta iota. subst a1. rewrite PyDict_pop_fresh by done.
    by apply Hrun3.
Qed.

Lemma backtrack_total k :
  ∀ assignment st,
    length (variables crossword) ≤ length assignment + k →
    NoDup (PyDict.keys assignment) →
    PyDict.keys assignment ⊆ variables crossword →
    store_ok crossword st →
    ∃ fuel0 r st',
      (∀ fuel, fuel0 ≤ fuel →
         backtrack crossword fuel assignment st = (Return r, st')) ∧
      store_ok crossword st'.
Proof.
  induction k as [|k IHk]; intros assignment st Hk Hnd Hsub Hst;
    destruct (assignment_complete crossword assignment) eqn:Hcomplete.
  1,3: exists 1, (Some assignment, assignment), st; split; [|done];
       intros [|fuel] ?; [lia|]; cbn [backtrack]; by rewrite Hcomplete.
  - destruct (incomplete_unassigned assignment) as [? _]; [done..|lia].
  - destruct (incomplete_unassigned assignment) as [_ (x0 & Hx0 & Hx0fresh)];
      [done..|].
    destruct (select_unassigned_variable_total crossword assignment x0)
      as (var & Hsel & Hvar & Hvfresh); [done..|by apply Hconnected|].
    destruct (order_domain_values_total crossword Hwf st var assignment)
      as (orderedlist & Hord & _); [done..|].
    destruct (backtrack_values_total var assignment Hvar Hvfresh)
      with (values := orderedlist) (st := st)
      as (fuel0 & r & st' & Hrun & Hst'); [|done|].
    { intros value st1 Hst1. apply IHk; [| | |done].
      - rewrite length_app. simpl. lia.
      - unfold PyDict.keys. rewrite fmap_app. simpl. apply NoDup_app.
        split_and!; [done| |apply NoDup_singleton].
        by intros v Hv ->%list_elem_of_singleton.
      - unfold PyDict.keys. rewrite fmap_app. simpl.
        intros v [?| ->%list_elem_of_singleton]%elem_of_app; auto. }
    exists (S fuel0), r, st'. split; [|done].
    intros [|fuel] ?; [lia|]. cbn [backtrack]. rewrite Hcomplete.
    erewrite bind_Return by (rewrite Hsel; apply lift_run).
    erewrite bind_Return by done. apply Hrun. lia.
Qed.

End Connected.

(** On a well-formed crossword in which every slot crosses another one,
    [solve] returns: with enough fuel its outcome is a result, the same
    whatever the fuel. *)
Theorem solve_returns c :
  wf_crossword c →
  (∀ v, v ∈ variables c → neighbors c v ≠ []) →
  ∃ fuel0 r st, ∀ fuel, fuel0 ≤ fuel → solve c fuel = (Return r, st).
Proof.
  intros Hwf Hconnected.
  destruct (enforce_node_consistency_init c Hwf) as (st0 & Henf & Hst0 & _).
  destruct (ac3_loop_total c Hwf (store_size c st0)
              (length (create_arcs c None [])) st0 (create_arcs c None []))
    as (f1 & b & st1 & Hrun1 & Hst1 & _); [done..| |].
  { by apply create_arcs_all_ok. }
  destruct (backtrack_total c Hwf Hconnected (length (variables c)) [] st1)
    as (f2 & [r a'] & st2 & Hrun2 & _);
    [simpl; lia|apply NoDup_nil_2|set_solver|done|].
  exists (f1 `max` f2), r, st2. intros fuel Hfuel.
  unfold solve, solve_from. erewrite bind_Return by done.
  erewrite bind_Return by (unfold ac3; apply Hrun1; lia).
  erewrite bind_Return by (apply Hrun2; lia). done.
Qed.

(** ** The concrete crosswords are well-formed *)

Lemma crossword1_wf : wf_crossword crossword1.
Proof.
  split; simpl.
  - apply NoDup_singleton.
  - apply NoDup_singleton.
  - by intros x y ?%elem_of_nil.
  - by intros x y ?%elem_of_nil.
  - by intros x ?%elem_of_nil.
  - by intros x y ?%elem_of_nil.
Qed.

Ltac crossword_cases :=
  repeat match goal with
         | H : _ ∈ [] |- _ => by apply elem_of_nil in H
         | H : _ ∈ _ :: _ |- _ => apply elem_of_cons in H as [->|H]
         | H : context [decide ?P] |- _ => destruct (decide P); simplify_eq
         end.

Lemma crossword3_wf : wf_crossword crossword3.
Proof.
  split; simpl.
  - by apply (bool_decide_unpack _).
  - by apply (bool_decide_unpack _).
  - intros x y H. unfold neighbors3 in H. crossword_cases; set_solver.
  - intros x y H. unfold neighbors3 in H.
    crossword_cases; by apply (bool_decide_unpack _).
  - intros x H. unfold neighbors3 in H.
    repeat case_decide; simplify_eq;
      apply (bool_decide_pack _) in H; by vm_compute in H.
  - intros x y H. unfold neighbors3 in H.
    crossword_cases; eexists _, _;
      (split_and!; [by vm_compute|simpl; lia..]).
Qed.

Lemma crossword2_wf : wf_crossword crossword2.
Proof.
  split; simpl.
  - by apply (bool_decide_unpack _).
  - by apply (bool_decide_unpack _).
  - intros x y H. unfold neighbors2 in H. crossword_cases; set_solver.
  - intros x y H. unfold neighbors2 in H.
    crossword_cases; by apply (bool_decide_unpack _).
  - intros x H. unfold neighbors2 in H.
    repeat case_decide; simplify_eq;
      apply (bool_decide_pack _) in H; by vm_compute in H.
  - intros x y H. unfold neighbors2 in H.
    crossword_cases; eexists _, _;
      (split_and!; [by vm_compute|simpl; lia..]).
Qed.

Lemma crossword8_wf : wf_crossword crossword8.
Proof.
  split; simpl.
  - by apply (bool_decide_unpack _).
  - by apply (bool_decide_unpack _).
  - intros x y H. unfold neighbors8 in H. crossword_cases; set_solver.
  - intros x y H. unfold neighbors8 in H.
    crossword_cases; by apply (bool_decide_unpack _).
  - intros x H. unfold neighbors8 in H.
    repeat case_decide; simplify_eq;
      apply (bool_decide_pack _) in H; by vm_compute in H.
  - intros x y H. unfold neighbors8 in H.
    crossword_cases; eexists _, _;
      (split_and!; [by vm_compute|simpl; lia..]).
Qed.

Example enforce_node_consistency_crossword3 :
  enforce_node_consistency crossword3 (init_domains crossword3)
  = (Return tt, domains3).
Proof. vm_compute. reflexivity. Qed.

Example propagation_crossword2 :
  (enforce_node_consistency crossword2 ;;; ac3 crossword2 None 4)
    (init_domains crossword2)
  = (Return true, domains2).
Proof. vm_compute. reflexivity. Qed.

Example propagation_crossword8 :
  (enforce_node_consistency crossword8 ;;; ac3 crossword8 None 4)
    (init_domains crossword8)
  = (Return false, domains8_propagated).
Proof. vm_compute. reflexivity. Qed.

Lemma solve_returns_witness :
  ∃ fuel0 r st, ∀ fuel, fuel0 ≤ fuel → solve crossword3 fuel = (Return r, st).
Proof.
  apply (solve_returns crossword3).
  - apply crossword3_wf.
  - intros v Hv. simpl in Hv.
    repeat (apply elem_of_cons in Hv as [->|Hv]);
      [by vm_compute..|by apply elem_of_nil in Hv].
Defined.

Lemma solve_sound_crossword3 :
  complete crossword3
    [(slotX, "DOG"); (slotY, "DO"); (slotZ, "GOAT")] ∧
  consistent_assignment crossword3
    [(slotX, "DOG"); (slotY, "DO"); (slotZ, "GOAT")].
Proof.
  eapply (solve_sound crossword3 8). vm_compute. reflexivity.
Defined.

(** ** The claims *)

(** C1. [solve] is meant to return either no solution or a complete and
    consistent assignment. On the crossword with a single slot it does
    neither: the assignment is not complete, [select_unassigned_variable]
    finds no variable with more than zero neighbors, and reading the
    unbound local raises. The crossword is well-formed and the outcome is
    the same whatever the fuel. *)
Theorem solve_single_slot_raises (fuel : nat) :
  wf_crossword crossword1 ∧
  (solve crossword1 (S fuel)).1 = Raise UnboundLocalError.
Proof. split; [apply crossword1_wf|]. vm_compute. reflexivity. Qed.

(** C2. [select_unassigned_variable] is meant to pick an unassigned
    variable with the fewest candidates, ties broken by degree, and to be
    always defined. The code looks at the degree only: on [crossword3] it
    returns [slotX], which has two candidates, although [slotY] has one; and
    on [crossword1], whose only variable has no neighbor, it raises. *)
Theorem select_unassigned_variable_not_mrv :
  select_unassigned_variable crossword3 [] = Return slotX ∧
  ¬ mrv_choice crossword3 domains3 [] slotX ∧
  mrv_choice crossword3 domains3 [] slotY ∧
  select_unassigned_variable crossword1 [] = Raise UnboundLocalError.
Proof.
  split_and!; [done| | |done].
  - intros (_ & _ & H). destruct (H slotY) as [Hle _].
    + by apply (bool_decide_unpack _).
    + by apply (bool_decide_unpack _).
    + vm_compute in Hle. lia.
  - split_and!; [by apply (bool_decide_unpack _)..|].
    intros u Hu _. simpl in Hu.
    repeat (apply elem_of_cons in Hu as [->|Hu]);
      [| |  |by apply elem_of_nil in Hu]; vm_compute; split; lia.
Qed.

(** C3. A candidate that is given up should leave the domain store as it
    was before its inference step. In [crossword2], after node and arc
    consistency, the candidate ["AT"] for [slotA] passes the consistency
    check, inference succeeds and narrows both domains, the recursive call
    fails, and the candidate is given up with the domains still narrowed:
    the store is restored only when inference fails. The whole search from
    the same store ends with the same narrowed store. *)
Theorem backtrack_keeps_narrowed_domains :
  (enforce_node_consistency crossword2 ;;; ac3 crossword2 None 4)
    (init_domains crossword2)
  = (Return true, domains2) ∧
  backtrack_values crossword2 (backtrack crossword2 4) 4 slotA ["AT"] []
                   domains2
  = (Return (None, []), <[slotA := ["AT"]]> (<[slotD := ["AT"]]> ∅)) ∧
  backtrack crossword2 4 [] domains2
  = (Return (None, []), <[slotA := ["AT"]]> (<[slotD := ["AT"]]> ∅)) ∧
  <[slotA := ["AT"]]> (<[slotD := ["AT"]]> ∅) ≠ domains2.
Proof.
  split_and!; [by vm_compute..|].
  intros H. apply (f_equal (λ st : Domains, st !! slotD)) in H.
  by vm_compute in H.
Qed.

(** C4. [revise] is meant to return [True] exactly when it removed a
    candidate. The flag is reset whenever a later candidate finds support:
    with [domains[slotX]] visited as ["CAT"], ["DOG"] and
    [domains[slotY] = {"DO"}], ["CAT"] is removed, ["DOG"] is kept, and the
    call returns [False]. *)
Theorem revise_reports_no_change_after_removal :
  overlaps crossword3 slotX slotY = Some (0, 0) ∧
  domains3 !! slotX = Some ["CAT"; "DOG"] ∧
  domains3 !! slotY = Some ["DO"] ∧
  revise crossword3 slotX slotY domains3
  = (Return false, <[slotX := ["DOG"]]> domains3).
Proof. split_and!; by vm_compute. Qed.

(** C5. After a successful [ac3] every candidate should have support
    across every overlap. On [crossword3], right after node consistency,
    [ac3] returns [True] and leaves ["TOAD"] in [domains[slotZ]] although
    [domains[slotX]] is down to ["DOG"]: the arc [(slotZ, slotX)] was
    revised before ["CAT"] was removed, and the removal was not reported,
    so the arc was never queued again. *)
Theorem ac3_succeeds_without_arc_consistency :
  enforce_node_consistency crossword3 (init_domains crossword3)
  = (Return tt, domains3) ∧
  ac3 crossword3 None 4 domains3
  = (Return true, <[slotX := ["DOG"]]> domains3) ∧
  ¬ arc_consistent crossword3 (<[slotX := ["DOG"]]> domains3).
Proof.
  split_and!; [by vm_compute..|].
  intros H.
  destruct (H slotZ slotX 0 2 ["TOAD"; "GOAT"] ["DOG"]) with (v := "TOAD")
    as (w & Hw & Hagree); [by vm_compute..|left|].
  apply list_elem_of_singleton in Hw as ->. by vm_compute in Hagree.
Qed.

(** C6. [revise] on two variables that do not overlap is not the no-op
    the specification describes: the code has no test for a missing
    overlap. On [crossword3], [slotY] and [slotZ] do not cross; [revise]
    first removes ["DO"] from [domains[slotY]], then subscripts the missing
    overlap and raises. *)
Lemma revise_without_overlap_raises :
  overlaps crossword3 slotY slotZ = None ∧
  revise crossword3 slotY slotZ domains3
  = (Raise TypeError, <[slotY := []]> domains3) ∧
  revise crossword3 slotY slotZ domains3 ≠ (Return false, domains3).
Proof. split_and!; by vm_compute. Qed.

Lemma revise_values_unsupported overlap x y xvalues :
  x ≠ y → NoDup xvalues →
  ∀ revised st,
    st !! x = Some xvalues → st !! y = Some [] →
    revise_values overlap x y xvalues revised st
    = (Return (match xvalues with [] => revised | _ :: _ => true end),
       <[x := []]> st).
Proof.
  intros Hxy. induction 1 as [|xvalue rest Hfresh Hnd IH];
    intros revised st Hx Hy; cbn [revise_values].
  - by rewrite insert_id.
  - erewrite bind_Return
      by (eapply domain_remove_Some; [done|by apply PySet_remove_head]).
    erewrite bind_Return
      by (apply get_domain_Some; by rewrite lookup_insert_ne).
    cbn [revise_support]. erewrite (bind_Return (ret true)) by done.
    rewrite IH; [|by rewrite lookup_insert_eq|by rewrite lookup_insert_ne].
    rewrite insert_insert_eq. by destruct rest.
Qed.

(** C6, as the code has it. For two different variables without overlap,
    [revise] is a no-op returning [False] only when [domains[x]] is empty.
    Otherwise it removes the first candidate of [domains[x]] and, if
    [domains[y]] has a candidate to compare it with, raises [TypeError]; if
    [domains[y]] is empty it goes on to remove every candidate of
    [domains[x]] and returns [True]. *)
Theorem revise_without_overlap c x y st dx dy :
  overlaps c x y = None → x ≠ y →
  st !! x = Some dx → st !! y = Some dy → NoDup dx →
  revise c x y st
  = match dx, dy with
    | [], _ => (Return false, st)
    | _ :: _, [] => (Return true, <[x := []]> st)
    | _ :: rest, _ :: _ => (Raise TypeError, <[x := rest]> st)
    end.
Proof.
  intros Hov Hxy Hx Hy Hnd. unfold revise.
  erewrite bind_Return by by apply get_domain_Some. rewrite Hov.
  destruct dx as [|xvalue rest]; [done|]. destruct dy as [|yvalue dy].
  - by rewrite (revise_values_unsupported None x y (xvalue :: rest) Hxy Hnd).
  - apply NoDup_cons in Hnd as [Hfresh _]. cbn [revise_values].
    erewrite bind_Return
      by (eapply domain_remove_Some; [done|by apply PySet_remove_head]).
    erewrite bind_Return
      by (apply get_domain_Some; by rewrite lookup_insert_ne).
    done.
Qed.

Lemma revise_without_overlap_witness :
  revise crossword3 slotY slotZ domains3
  = (Raise TypeError, <[slotY := []]> domains3).
Proof.
  apply (revise_without_overlap crossword3 slotY slotZ domains3
           ["DO"] ["TOAD"; "GOAT"]).
  - vm_compute. reflexivity.
  - vm_compute. discriminate.
  - vm_compute. reflexivity.
  - vm_compute. reflexivity.
  - apply NoDup_singleton.
Defined.

(** C7. [ac3] returns [False] exactly when its propagation empties a
    domain: some variable had candidates when [ac3] was entered and has
    none when it returns. Revisions only remove candidates and [ac3] stops
    at the first domain it finds empty, so this is the same as a domain
    becoming empty at some revision of the run; in particular a run that
    returns [True] emptied no domain. The first part holds of every return
    of [ac3], on any store; the second part says that [ac3] does return,
    given enough fuel, on the stores and arcs the solver runs it on. *)
Theorem ac3_fails_iff_domain_emptied c arcs st :
  (∀ fuel b st',
     ac3 c arcs fuel st = (Return b, st') →
     b = false ↔ ∃ x d, st !! x = Some d ∧ d ≠ [] ∧ st' !! x = Some []) ∧
  (wf_crossword c → store_ok c st →
   match arcs with
   | Some queue => Forall (arc_ok c) queue
   | None => True
   end →
   ∃ fuel0 b st',
     ∀ fuel, fuel0 ≤ fuel → ac3 c arcs fuel st = (Return b, st')).
Proof.
  split.
  - intros fuel b st'. unfold ac3. apply ac3_loop_false_iff.
  - intros Hwf. by apply ac3_terminates.
Qed.

Lemma ac3_fails_iff_domain_emptied_witness :
  (false = false ↔
   ∃ x d, domains8 !! x = Some d ∧ d ≠ [] ∧
          domains8_propagated !! x = Some []) ∧
  (∃ fuel0 b st',
     ∀ fuel, fuel0 ≤ fuel → ac3 crossword8 None fuel domains8 = (Return b, st')).
Proof.
  destruct (ac3_fails_iff_domain_emptied crossword8 None domains8)
    as [Hiff Hterm].
  split.
  - apply (Hiff 4 false domains8_propagated). vm_compute. reflexivity.
  - apply Hterm; [apply crossword8_wf| |done].
    intros v Hv. simpl in Hv.
    repeat (apply elem_of_cons in Hv as [->|Hv]);
      [| |by apply elem_of_nil in Hv];
      eexists; (split_and!; [by vm_compute|by apply (bool_decide_unpack _)|]);
      repeat constructor.
Defined.

(** C8. On [crossword8] the propagation empties [domains[slotB]] and fails.
    [solve] does not look at that result: it runs the search, which tries
    both candidates of [slotA], narrows [domains[slotA]] on the way, and
    only then answers "no solution". The answer is the one the
    specification asks for, the store is not. *)
Lemma solve_searches_after_failed_propagation :
  (enforce_node_consistency crossword8 ;;; ac3 crossword8 None 4)
    (init_domains crossword8)
  = (Return false, domains8_propagated) ∧
  solve_without_search crossword8 4 = (Return None, domains8_propagated) ∧
  solve crossword8 4 = (Return None, <[slotA := ["ON"]]> domains8_propagated) ∧
  solve crossword8 4 ≠ solve_without_search crossword8 4.
Proof. split_and!; by vm_compute. Qed.

(** C8, as the code has it. On a well-formed crossword, when the
    propagation that follows node consistency empties a domain, [solve]
    still runs the backtracking search on the store the propagation left,
    and that search returns "no solution": with enough fuel [solve] returns
    [None], and its final store is the one the search leaves. *)
Theorem solve_after_failed_propagation c fuelA st1 :
  wf_crossword c →
  (enforce_node_consistency c ;;; ac3 c None fuelA) (init_domains c)
  = (Return false, st1) →
  ∃ fuel0 st2, ∀ fuel, fuel0 ≤ fuel →
    solve c fuel = (Return None, st2) ∧
    backtrack c fuel [] st1 = (Return (None, []), st2).
Proof.
  intros Hwf Hprop.
  destruct (enforce_node_consistency_init c Hwf) as (st0 & Henf & Hst0 & Hkeys).
  rewrite (bind_Return _ _ _ _ _ Henf) in Hprop. unfold ac3 in Hprop.
  destruct (proj1 (ac3_loop_false_iff _ _ _ _ _ _ Hprop) eq_refl)
    as (x0 & d & Hd & Hne & Hempty).
  destruct (ac3_loop_total c Hwf (store_size c st0)
              (length (create_arcs c None [])) st0 (create_arcs c None []))
    as (f1 & b' & st' & Hrun1 & Hst1 & _ & Hiso); [done..| |].
  { apply create_arcs_all_ok. done. }
  specialize (Hrun1 (f1 `max` fuelA) ltac:(lia)).
  rewrite (ac3_loop_fuel_mono _ _ _ _ _ _ _ Hprop) in Hrun1 by lia.
  injection Hrun1 as <- <-.
  assert (x0 ∈ variables c) as Hx0 by (apply Hkeys; by rewrite Hd).
  assert (neighbors c x0 ≠ []) as Hdeg.
  { intros Hn. rewrite (Hiso _ Hn), Hd in Hempty. by simplify_eq. }
  destruct (backtrack_dead c Hwf x0 Hx0 Hdeg (length (variables c)) [] st1)
    as (f2 & st2 & Hrun2 & _); [simpl; lia|apply NoDup_nil_2|set_solver
                                |apply not_elem_of_nil|done..|].
  exists (fuelA `max` f2), st2. intros fuel Hfuel. split.
  - unfold solve, solve_from. erewrite bind_Return by done.
    erewrite bind_Return
      by (unfold ac3; eapply ac3_loop_fuel_mono; [done|lia]).
    erewrite bind_Return by (apply Hrun2; lia). done.
  - apply Hrun2. lia.
Qed.

Lemma solve_after_failed_propagation_witness :
  ∃ fuel0 st2, ∀ fuel, fuel0 ≤ fuel →
    solve crossword8 fuel = (Return None, st2) ∧
    backtrack crossword8 fuel [] domains8_propagated
    = (Return (None, []), st2).
Proof.
  apply (solve_after_failed_propagation crossword8 4 domains8_propagated).
  - apply crossword8_wf.
  - vm_compute. reflexivity.
Defined.

(** C10. A call [revise(x, y)] on overlapping variables changes
    [domains[x]] only: every other variable, [y] among them, keeps its
    domain, and what is left in [domains[x]] was there at entry. This
    holds for every outcome of the call, a raise included. *)
Theorem revise_mutates_only_x c x y i j st r st' :
  overlaps c x y = Some (i, j) →
  revise c x y st = (r, st') →
  (∀ z, z ≠ x → st' !! z = st !! z) ∧
  (x ≠ y → st' !! y = st !! y) ∧
  (∀ d', st' !! x = Some d' → ∃ d, st !! x = Some d ∧ d' ⊆ d).
Proof.
  intros _ Hrev. apply revise_shrinks in Hrev as [Hframe Hsub].
  split_and!; [done| |done]. intros Hxy. by apply Hframe.
Qed.

Lemma revise_mutates_only_x_witness :
  (∀ z, z ≠ slotX → <[slotX := ["DOG"]]> domains3 !! z = domains3 !! z) ∧
  (slotX ≠ slotY →
   <[slotX := ["DOG"]]> domains3 !! slotY = domains3 !! slotY) ∧
  (∀ d', <[slotX := ["DOG"]]> domains3 !! slotX = Some d' →
         ∃ d, domains3 !! slotX = Some d ∧ d' ⊆ d).
Proof.
  apply (revise_mutates_only_x crossword3 slotX slotY 0 0 domains3
           (Return false)).
  - vm_compute. reflexivity.
  - vm_compute. reflexivity.
Defined.

(** C9. When [backtrack] returns failure, the assignment dictionary holds
    what it held at entry: every candidate that was set has been popped,
    whether it failed the consistency check, or its inference failed, or
    the recursive call came back empty-handed. The dictionary is compared
    as the association list it is, order of insertion included. *)
Theorem backtrack_failure_restores_assignment c fuel assignment st a' st' :
  backtrack c fuel assignment st = (Return (None, a'), st') →
  a' = assignment.
Proof. apply backtrack_restores. Qed.

Lemma backtrack_failure_restores_assignment_witness :
  [(slotA, "ON")] = [(slotA, "ON")].
Proof.
  apply (backtrack_failure_restores_assignment crossword2 4 [(slotA, "ON")]
           domains2 [(slotA, "ON")] domains2).
  vm_compute. reflexivity.
Defined.

(** * Further properties of the solver *)

(** ** Node consistency *)

(** X1. On the store built by [__init__], [enforce_node_consistency]
    returns without raising and leaves each variable exactly the words of
    its own length, in the order of the word list; no other key appears. *)
Theorem enforce_node_consistency_fresh c :
  wf_crossword c →
  ∃ st,
    enforce_node_consistency c (init_domains c) = (Return tt, st) ∧
    ∀ v, st !! v
         = if decide (v ∈ variables c)
           then Some (filter (λ w, String.length w = var_length v) (words c))
           else None.
Proof.
  intros Hwf.
  destruct (enforce_node_consistency_vars_exact c Hwf
              (variables c) (init_domains c))
    as (st & Hrun & Hin & Hout).
  { apply (wf_variables_NoDup _ Hwf). }
  { intros v Hv. by rewrite init_domains_lookup, decide_True. }
  exists st. split; [done|]. intros v. case_decide as Hv.
  - by apply Hin.
  - rewrite Hout, init_domains_lookup by done. by rewrite decide_False.
Qed.

Lemma enforce_node_consistency_fresh_witness :
  ∃ st,
    enforce_node_consistency crossword3 (init_domains crossword3)
    = (Return tt, st) ∧
    ∀ v, st !! v
         = if decide (v ∈ variables crossword3)
           then Some (filter (λ w, String.length w = var_length v)
                             (words crossword3))
           else None.
Proof. apply (enforce_node_consistency_fresh crossword3), crossword3_wf. Defined.

Lemma forallb_intro {A} (f : A → bool) (l : list A) :
  (∀ x, x ∈ l → f x = true) → forallb f l = true.
Proof.
  induction l as [|a l IH]; intros H; simpl; [done|].
  rewrite H by left. simpl. apply IH. intros x ?. apply H. by right.
Qed.

Lemma domain_remove_absent x v st d :
  st !! x = Some d → v ∉ d → domain_remove x v st = (Raise KeyError, st).
Proof.
  intros Hd Hv. unfold domain_remove.
  erewrite bind_Return by by apply get_domain_Some.
  unfold PySet.remove, PySet.mem. by rewrite bool_decide_eq_false_2.
Qed.

Lemma enforce_node_consistency_values_again var values st d :
  st !! var = Some d →
  (∀ w, w ∈ values → String.length w ≠ var_length var → w ∉ d) →
  enforce_node_consistency_values var values st
  = if forallb (λ w, bool_decide (String.length w = var_length var)) values
    then (Return tt, st) else (Raise KeyError, st).
Proof.
  intros Hd. induction values as [|value rest IH]; intros Hgone;
    cbn [enforce_node_consistency_values forallb]; [done|].
  case_decide as Hlen.
  - rewrite bool_decide_eq_false_2 by done. simpl.
    unfold bind at 1. erewrite domain_remove_absent; [done..|].
    apply Hgone; [left|done].
  - rewrite bool_decide_eq_true_2 by done. simpl.
    erewrite bind_Return by done. apply IH.
    intros w Hw. apply Hgone. by right.
Qed.

Lemma enforce_node_consistency_vars_again c vars (st : Domains) :
  (∀ var, var ∈ vars →
     ∃ d, st !! var = Some d ∧
          ∀ w, w ∈ words c → String.length w ≠ var_length var → w ∉ d) →
  enforce_node_consistency_vars c vars st
  = if forallb (λ var, forallb (λ w, bool_decide (String.length w
                                                   = var_length var))
                               (words c)) vars
    then (Return tt, st) else (Raise KeyError, st).
Proof.
  induction vars as [|var rest IH]; intros Hst;
    cbn [enforce_node_consistency_vars forallb]; [done|].
  destruct (Hst var) as (d & Hd & Hgone); [left|].
  unfold bind at 1.
  rewrite (enforce_node_consistency_values_again var (words c) st d)
    by done.
  destruct (forallb _ (words c)); simpl; [|done].
  apply IH. intros v Hv. apply Hst. by right.
Qed.

(** X2. [enforce_node_consistency] cannot be run twice. On the store left
    by a first run, a second run changes nothing; it returns normally only
    if every word has the length of every variable, and otherwise raises
    [KeyError], because the word it wants to remove is already gone. *)
Theorem enforce_node_consistency_twice c :
  wf_crossword c →
  ∃ st,
    enforce_node_consistency c (init_domains c) = (Return tt, st) ∧
    ((∀ v w, v ∈ variables c → w ∈ words c →
             String.length w = var_length v) →
     enforce_node_consistency c st = (Return tt, st)) ∧
    ((∃ v w, v ∈ variables c ∧ w ∈ words c ∧
             String.length w ≠ var_length v) →
     enforce_node_consistency c st = (Raise KeyError, st)).
Proof.
  intros Hwf. destruct (enforce_node_consistency_fresh c Hwf) as (st & Hrun & Hst).
  exists st. split; [done|].
  assert (enforce_node_consistency c st
          = if forallb (λ var, forallb (λ w, bool_decide (String.length w
                                                          = var_length var))
                                       (words c)) (variables c)
            then (Return tt, st) else (Raise KeyError, st)) as Hagain.
  { apply enforce_node_consistency_vars_again. intros var Hvar.
    eexists. split; [by rewrite Hst, decide_True|].
    intros w _ Hlen [? _]%list_elem_of_filter. done. }
  rewrite Hagain. split.
  - intros Hfit. rewrite forallb_intro; [done|].
    intros v Hv. apply forallb_intro. intros w Hw.
    apply bool_decide_eq_true. auto.
  - intros (v & w & Hv & Hw & Hlen).
    destruct (forallb _ (variables c)) eqn:Hall; [|done]. exfalso.
    pose proof (forallb_elem_of _ _ _ Hall Hv) as Hrow. simpl in Hrow.
    pose proof (forallb_elem_of _ _ _ Hrow Hw) as Hcell. simpl in Hcell.
    by apply bool_decide_eq_true in Hcell.
Qed.

Lemma enforce_node_consistency_twice_witness :
  ∃ st,
    enforce_node_consistency crossword3 (init_domains crossword3)
    = (Return tt, st) ∧
    ((∀ v w, v ∈ variables crossword3 → w ∈ words crossword3 →
             String.length w = var_length v) →
     enforce_node_consistency crossword3 st = (Return tt, st)) ∧
    ((∃ v w, v ∈ variables crossword3 ∧ w ∈ words crossword3 ∧
             String.length w ≠ var_length v) →
     enforce_node_consistency crossword3 st = (Raise KeyError, st)).
Proof. apply (enforce_node_consistency_twice crossword3), crossword3_wf. Defined.

(** ** [revise] and [ac3] *)

Lemma supported_spec i j dy v :
  supported i j dy v = true ↔ ∃ w, w ∈ dy ∧ agree_at i j v w = true.
Proof.
  unfold supported. induction dy as [|w dy IH]; simpl.
  - split; [done|]. by intros (w & ?%elem_of_nil & _).
  - rewrite orb_true_iff, IH. split.
    + intros [?|(w' & ? & ?)]; [exists w; split; [left|done]|].
      exists w'. split; [by right|done].
    + intros (w' & [->|?]%elem_of_cons & ?); [by left|right; by exists w'].
Qed.

(** X3. On two different variables whose overlap lies inside every
    candidate, [revise] returns without raising, changes [domains[x]] only,
    and keeps in it exactly the candidates that some candidate of
    [domains[y]] agrees with at the overlap. A result [True] is never a
    false alarm: it means that [domains[x]] lost a candidate. *)
Theorem revise_keeps_supported c x y i j st dx dy :
  x ≠ y → overlaps c x y = Some (i, j) →
  st !! x = Some dx → st !! y = Some dy → NoDup dx →
  Forall (λ v, i < String.length v) dx →
  Forall (λ w, j < String.length w) dy →
  ∃ b d',
    revise c x y st = (Return b, <[x := d']> st) ∧
    NoDup d' ∧
    (∀ v, v ∈ d' ↔ v ∈ dx ∧ ∃ w, w ∈ dy ∧ agree_at i j v w = true) ∧
    (b = true → length d' < length dx).
Proof.
  intros Hxy Hov Hx Hy Hnd Hi Hj.
  exists (last_unsupported i j dy dx), (filter (supported i j dy) dx).
  split_and!.
  - by apply revise_exact.
  - by apply NoDup_filter.
  - intros v. rewrite list_elem_of_filter, <- supported_spec.
    destruct (supported i j dy v); simpl;
      [intuition|split; [by intros [[] _]|by intros [_ ?]]].
  - apply last_unsupported_shrinks.
Qed.

Lemma revise_keeps_supported_witness :
  ∃ b d',
    revise crossword3 slotX slotY domains3
    = (Return b, <[slotX := d']> domains3) ∧
    NoDup d' ∧
    (∀ v, v ∈ d' ↔ v ∈ ["CAT"; "DOG"] ∧
                   ∃ w, w ∈ ["DO"] ∧ agree_at 0 0 v w = true) ∧
    (b = true → length d' < length ["CAT"; "DOG"]).
Proof.
  apply (revise_keeps_supported crossword3 slotX slotY 0 0 domains3
           ["CAT"; "DOG"] ["DO"]).
  - vm_compute. discriminate.
  - vm_compute. reflexivity.
  - vm_compute. reflexivity.
  - vm_compute. reflexivity.
  - by apply (bool_decide_unpack _).
  - repeat constructor.
  - repeat constructor.
Defined.

Lemma shrunk_refl st : shrunk st st.
Proof. intros v d' ?. by exists d'. Qed.

Lemma shrunk_trans st1 st2 st3 :
  shrunk st1 st2 → shrunk st2 st3 → shrunk st1 st3.
Proof.
  intros H12 H23 v d3 Hd3. destruct (H23 v d3 Hd3) as (d2 & Hd2 & Hsub23).
  destruct (H12 v d2 Hd2) as (d1 & Hd1 & Hsub12). exists d1.
  split; [done|]. by etrans.
Qed.

Lemma revise_shrunk c x y st r st' :
  revise c x y st = (r, st') → shrunk st st'.
Proof.
  intros [Hframe Hsub]%revise_shrinks v d' Hd'.
  destruct (decide (v = x)) as [->|Hvx]; [by apply Hsub|].
  exists d'. by rewrite <- Hframe.
Qed.

Lemma ac3_loop_shrunk c fuel queue st r st' :
  ac3_loop c fuel queue st = (r, st') → shrunk st st'.
Proof.
  revert queue st. induction fuel as [|fuel IH]; intros queue st; simpl;
    destruct (list_pop queue) as [[[x y] queue']|].
  - intros [= <- <-]. apply shrunk_refl.
  - intros [= <- <-]. apply shrunk_refl.
  - intros [(rv & st1 & Hr & Hk)|[(e & Hr & _)|[Hr _]]]%bind_run;
      try by eapply revise_shrunk.
    apply revise_shrunk in Hr. eapply shrunk_trans; [done|].
    destruct rv; [|by eapply IH].
    apply bind_run in Hk as [(dx & st2 & Hg & Hk)|[(e & Hg & _)|[Hg _]]];
      apply get_domain_run in Hg as [-> _]; try apply shrunk_refl.
    case_decide; [|by eapply IH].
    unfold ret in Hk. injection Hk as <- <-. apply shrunk_refl.
  - intros [= <- <-]. apply shrunk_refl.
Qed.

(** X4. [ac3] only removes candidates. Whatever its outcome, a normal
    return, a raise or a cut for lack of fuel, every domain of the store it
    leaves is contained in the domain the same variable had at entry, and
    no variable gains a domain. *)
Theorem ac3_only_removes c arcs fuel st r st' :
  ac3 c arcs fuel st = (r, st') →
  ∀ v, (st !! v = None → st' !! v = None) ∧
       (∀ d', st' !! v = Some d' → ∃ d, st !! v = Some d ∧ d' ⊆ d).
Proof.
  unfold ac3. intros Hrun%ac3_loop_shrunk v. split; [|by apply Hrun].
  intros Hnone. destruct (st' !! v) as [d'|] eqn:Hd'; [|done].
  destruct (Hrun v d' Hd') as (d & Hd & _). congruence.
Qed.

Lemma ac3_only_removes_witness :
  (domains3 !! slotX = None → <[slotX := ["DOG"]]> domains3 !! slotX = None) ∧
  (∀ d', <[slotX := ["DOG"]]> domains3 !! slotX = Some d' →
         ∃ d, domains3 !! slotX = Some d ∧ d' ⊆ d).
Proof.
  apply (ac3_only_removes crossword3 None 4 domains3 (Return true)).
  vm_compute. reflexivity.
Defined.

Lemma all_supported_fixpoint i j dy dx :
  (∀ v, v ∈ dx → supported i j dy v = true) →
  filter (supported i j dy) dx = dx ∧ last_unsupported i j dy dx = false.
Proof.
  intros Hall. split.
  - induction dx as [|v dx IH]; [done|].
    rewrite filter_cons_True by (rewrite Hall; [done|left]).
    rewrite IH; [done|]. intros w ?. apply Hall. by right.
  - unfold last_unsupported. destruct dx as [|v dx _] using rev_ind; [done|].
    rewrite foldl_app. simpl. rewrite Hall; [done|].
    apply elem_of_app. right. left.
Qed.

Lemma ac3_loop_arc_consistent c :
  wf_crossword c →
  ∀ st, store_ok c st → arc_consistent c st →
  ∀ fuel queue,
    length queue ≤ fuel → Forall (arc_ok c) queue →
    ac3_loop c fuel queue st = (Return true, st).
Proof.
  intros Hwf st Hst Hac. induction fuel as [|fuel IH]; intros queue Hlen Hq.
  { destruct queue; [done|simpl in Hlen; lia]. }
  simpl. destruct (list_pop queue) as [[[x y] queue']|] eqn:Hpop; [|done].
  pose proof (list_pop_Some _ _ _ Hpop) as ->.
  apply Forall_app in Hq as [Hq' [[Hx Hy] _]%Forall_cons].
  simpl in Hx, Hy. rewrite length_app in Hlen. simpl in Hlen.
  pose proof (wf_neighbors_variables _ Hwf _ _ Hy) as Hyv.
  destruct (wf_neighbors_overlap _ Hwf _ _ Hy) as (i & j & Hov & Hi & Hj).
  destruct (Hst x Hx) as (dx & Hdx & Hndx & Hlx).
  destruct (Hst y Hyv) as (dy & Hdy & Hndy & Hly).
  assert (x ≠ y) as Hxy.
  { intros ->. by eapply wf_neighbors_irrefl. }
  destruct (all_supported_fixpoint i j dy dx) as [Hfilter Hflag].
  { intros v Hv. apply supported_spec. by eapply Hac. }
  erewrite bind_Return; last first.
  { apply (revise_exact c x y i j st dx dy); try done.
    - eapply Forall_impl; [done|]. simpl. lia.
    - eapply Forall_impl; [done|]. simpl. lia. }
  rewrite Hflag, Hfilter, insert_id by done.
  apply IH; [lia|done].
Qed.

(** X5. An arc-consistent store is a fixed point of [ac3]. On a
    well-formed crossword and store in which every candidate already has
    support across every overlap, [ac3] returns [True] and leaves the
    store as it is; one unit of fuel per arc of the queue is enough. *)
Theorem ac3_arc_consistent_fixpoint c arcs st fuel :
  wf_crossword c → store_ok c st → arc_consistent c st →
  match arcs with
  | Some queue => Forall (arc_ok c) queue ∧ length queue ≤ fuel
  | None => length (create_arcs c None []) ≤ fuel
  end →
  ac3 c arcs fuel st = (Return true, st).
Proof.
  intros Hwf Hst Hac Harcs. unfold ac3. destruct arcs as [queue|].
  - destruct Harcs. by apply ac3_loop_arc_consistent.
  - apply ac3_loop_arc_consistent; [done..|]. by apply create_arcs_all_ok.
Qed.

Lemma domains2_store_ok : store_ok crossword2 domains2.
Proof.
  intros v Hv. simpl in Hv.
  repeat (apply elem_of_cons in Hv as [->|Hv]);
    [| |by apply elem_of_nil in Hv];
    eexists; (split_and!; [by vm_compute|by apply (bool_decide_unpack _)|]);
    repeat constructor.
Qed.

Lemma domains2_arc_consistent : arc_consistent crossword2 domains2.
Proof.
  intros x y i j dx dy Hov Hx Hy v Hv. simpl in Hov. unfold overlaps2 in Hov.
  repeat case_decide; destruct_and?; simplify_eq;
    vm_compute in Hx; vm_compute in Hy; simplify_eq;
    repeat (apply elem_of_cons in Hv as [->|Hv]);
    try (by apply elem_of_nil in Hv).
  all: first [exists "AT"; split; [by apply (bool_decide_unpack _)|by vm_compute]
             |exists "ON"; split; [by apply (bool_decide_unpack _)|by vm_compute]].
Qed.

Lemma ac3_arc_consistent_fixpoint_witness :
  ac3 crossword2 None 2 domains2 = (Return true, domains2).
Proof.
  apply (ac3_arc_consistent_fixpoint crossword2 None domains2 2).
  - apply crossword2_wf.
  - apply domains2_store_ok.
  - apply domains2_arc_consistent.
  - vm_compute. lia.
Defined.

(** ** [create_arcs] *)

Lemma append_new_elem (arcs : list Arc) arc arc' :
  arc' ∈ append_new arcs arc ↔ arc' ∈ arcs ∨ arc' = arc.
Proof.
  unfold append_new. case_bool_decide as Hin.
  - split; [by left|]. by intros [?| ->].
  - rewrite elem_of_app, list_elem_of_singleton. done.
Qed.

Lemma append_new_NoDup (arcs : list Arc) arc :
  NoDup arcs → NoDup (append_new arcs arc).
Proof.
  intros Hnd. unfold append_new. case_bool_decide as Hin; [done|].
  apply NoDup_app. split_and!; [done| |apply NoDup_singleton].
  by intros a Ha ->%list_elem_of_singleton.
Qed.

Lemma foldl_append_new_elem (g : Var → Arc) zs arcs arc :
  arc ∈ foldl (λ arcs z, append_new arcs (g z)) arcs zs
  ↔ arc ∈ arcs ∨ ∃ z, z ∈ zs ∧ arc = g z.
Proof.
  revert arcs. induction zs as [|z zs IH]; intros arcs; simpl.
  - split; [by left|]. by intros [?|(z & ?%elem_of_nil & _)].
  - rewrite IH, append_new_elem. split.
    + intros [[?| ->]|(z' & ? & ->)]; [by left|right..].
      * exists z. split; [left|done].
      * exists z'. split; [by right|done].
    + intros [?|(z' & [->|?]%elem_of_cons & ->)]; [by left; left|by left; right|].
      right. by exists z'.
Qed.

Lemma foldl_append_new_NoDup (g : Var → Arc) zs arcs :
  NoDup arcs → NoDup (foldl (λ arcs z, append_new arcs (g z)) arcs zs).
Proof.
  revert arcs. induction zs as [|z zs IH]; intros arcs Hnd; simpl; [done|].
  by apply IH, append_new_NoDup.
Qed.

(** X6. [create_arcs()] called for the whole crossword lists every ordered
    pair of a variable and one of its neighbors that is not a key of
    [assignment], each pair once, and nothing else. *)
Theorem create_arcs_all c assignment :
  NoDup (create_arcs c None assignment) ∧
  ∀ x y, (x, y) ∈ create_arcs c None assignment
         ↔ x ∈ variables c ∧ y ∈ neighbors c x ∧
           y ∉ PyDict.keys assignment.
Proof.
  unfold create_arcs.
  set (step := λ (arcs : list Arc) (var : Var),
         foldl (λ arcs neighbor, append_new arcs (var, neighbor)) arcs
               (set_minus (neighbors c var) (PyDict.keys assignment))).
  assert (∀ vars arcs,
            (NoDup arcs → NoDup (foldl step arcs vars)) ∧
            ∀ x y, (x, y) ∈ foldl step arcs vars
                   ↔ (x, y) ∈ arcs ∨
                     (x ∈ vars ∧ y ∈ neighbors c x ∧
                      y ∉ PyDict.keys assignment)) as Hgen.
  { induction vars as [|var vars IH]; intros arcs; simpl.
    - split; [done|]. intros x y. split; [by left|].
      by intros [?|[?%elem_of_nil _]].
    - destruct (IH (step arcs var)) as [IHnd IHin]. split.
      + intros Hnd. apply IHnd. unfold step.
        by apply (foldl_append_new_NoDup (λ neighbor, (var, neighbor))).
      + intros x y. rewrite IHin. unfold step at 1.
        rewrite (foldl_append_new_elem (λ neighbor, (var, neighbor))).
        unfold set_minus. setoid_rewrite list_elem_of_filter.
        split.
        * intros [[?|(z & [? ?] & [= -> ->])]|(? & ? & ?)].
          -- by left.
          -- right. split_and!; [left|done..].
          -- right. split_and!; [by right|done..].
        * intros [?|([->|?]%elem_of_cons & ? & ?)].
          -- by left; left.
          -- left. right. by exists y.
          -- by right. }
  destruct (Hgen (variables c) []) as [Hnd Hin]. split.
  - apply Hnd, NoDup_nil_2.
  - intros x y. rewrite Hin. split; [|by right].
    by intros [?%elem_of_nil|?].
Qed.

(** X7. [create_arcs(var, assignment)] lists the arcs that point at [var]
    from each of its neighbors that is not assigned, each once, and
    nothing else; [var] itself need not be a variable of the crossword. *)
Theorem create_arcs_var c var assignment :
  NoDup (create_arcs c (Some var) assignment) ∧
  ∀ x y, (x, y) ∈ create_arcs c (Some var) assignment
         ↔ y = var ∧ x ∈ neighbors c var ∧ x ∉ PyDict.keys assignment.
Proof.
  unfold create_arcs. split.
  - apply (foldl_append_new_NoDup (λ neighbor, (neighbor, var))),
      NoDup_nil_2.
  - intros x y.
    rewrite (foldl_append_new_elem (λ neighbor, (neighbor, var))).
    unfold set_minus. setoid_rewrite list_elem_of_filter. split.
    + by intros [?%elem_of_nil|(z & [? ?] & [= -> ->])].
    + intros (-> & ? & ?). right. by exists x.
Qed.

(** ** [consistent] and [assignment_complete] *)

Lemma overlap_agree_of_agree_at i j a b :
  agree_at i j a b = true → overlap_agree (Some (i, j)) a b = Return true.
Proof.
  unfold agree_at, overlap_agree.
  destruct (char_at a i); [|done]. destruct (char_at b j); [|done].
  by intros ->.
Qed.

Lemma neighbors_agree_complete c assignment element element_value nbrs :
  consistent_assignment c assignment →
  (element, element_value) ∈ assignment →
  nbrs ⊆ neighbors c element →
  neighbors_agree c assignment element element_value nbrs = Return true.
Proof.
  intros (_ & _ & Hagree) Hel.
  induction nbrs as [|neighbor rest IH]; intros Hsub;
    cbn [neighbors_agree]; [done|].
  assert (rest ⊆ neighbors c element) as Hrest.
  { intros z ?. apply Hsub. by right. }
  destruct (PyDict.mem neighbor assignment) eqn:Hmem; [|by apply IH].
  destruct (PyDict_get_mem _ _ Hmem) as (nv & -> & Hin).
  destruct (Hagree element neighbor element_value nv) as (i & j & -> & Hag);
    [done..|apply Hsub; left|].
  rewrite (overlap_agree_of_agree_at _ _ _ _ Hag). by apply IH.
Qed.

Lemma arcs_agree_complete c assignment elements :
  consistent_assignment c assignment →
  elements ⊆ assignment →
  arcs_agree c assignment elements = Return true.
Proof.
  intros Hc.
  induction elements as [|[element element_value] rest IH]; intros Hsub;
    cbn [arcs_agree]; [done|].
  rewrite (neighbors_agree_complete c assignment element element_value);
    [|done|apply Hsub; left|done].
  apply IH. intros z ?. apply Hsub. by right.
Qed.

(** X8. [consistent] answers [True] exactly on the assignments the
    specification calls consistent: the words are pairwise different, each
    has the length of its variable, and two assigned neighbors agree at
    their overlap. On a well-formed crossword it always answers. *)
Theorem consistent_iff c assignment :
  NoDup (PyDict.keys assignment) →
  (consistent c assignment = Return true
   ↔ consistent_assignment c assignment) ∧
  (wf_crossword c → ∃ b, consistent c assignment = Return b).
Proof.
  intros Hnd. split; [split|].
  - by apply consistent_true.
  - intros Hc. pose proof Hc as (Hdist & Hlens & _). unfold consistent.
    assert (values_distinct assignment = true) as ->.
    { unfold values_distinct. apply forallb_intro. intros [x wx] Hx.
      apply forallb_intro. intros [y wy] [Hne Hy]%list_elem_of_filter.
      simpl in Hne. apply bool_decide_eq_true. eauto. }
    assert (lengths_match assignment = true) as ->.
    { apply lengths_match_Forall, Forall_forall. intros [x wx] Hx. simpl.
      eauto. }
    simpl. by apply arcs_agree_complete.
  - intros Hwf. destruct (consistent_total c Hwf assignment) as (b & Hb & _).
    by exists b.
Qed.

Lemma consistent_iff_witness :
  (consistent crossword3 [(slotX, "DOG"); (slotY, "DO")] = Return true
   ↔ consistent_assignment crossword3 [(slotX, "DOG"); (slotY, "DO")]) ∧
  (wf_crossword crossword3 →
   ∃ b, consistent crossword3 [(slotX, "DOG"); (slotY, "DO")] = Return b).
Proof.
  apply (consistent_iff crossword3 [(slotX, "DOG"); (slotY, "DO")]).
  by apply (bool_decide_unpack _).
Defined.

(** X9. [assignment_complete] compares two sizes. For a dictionary whose
    keys are variables of the crossword it answers [True] exactly when
    every variable has a word. *)
Theorem assignment_complete_iff c assignment :
  NoDup (variables c) →
  NoDup (PyDict.keys assignment) →
  PyDict.keys assignment ⊆ variables c →
  assignment_complete c assignment = true ↔ complete c assignment.
Proof.
  intros Hvars Hkeys Hsub. unfold assignment_complete, complete.
  rewrite bool_decide_eq_true.
  pose proof (submseteq_length _ _ (NoDup_submseteq _ _ Hkeys Hsub)) as Hle.
  unfold PyDict.keys in *. rewrite length_fmap in Hle. split.
  - intros Hlen v Hv.
    assert (assignment.*1 ≡ₚ variables c) as Hperm.
    { apply submseteq_length_Permutation; [by apply NoDup_submseteq|].
      rewrite length_fmap. lia. }
    by rewrite Hperm.
  - intros Hall.
    pose proof (submseteq_length _ _ (NoDup_submseteq _ _ Hvars Hall)) as Hge.
    rewrite length_fmap in Hge. lia.
Qed.

Lemma assignment_complete_iff_witness :
  assignment_complete crossword2 [(slotA, "AT"); (slotD, "ON")] = true
  ↔ complete crossword2 [(slotA, "AT"); (slotD, "ON")].
Proof.
  apply (assignment_complete_iff crossword2 [(slotA, "AT"); (slotD, "ON")]).
  - by apply (bool_decide_unpack _).
  - by apply (bool_decide_unpack _).
  - simpl. set_solver.
Defined.

(** ** [select_unassigned_variable] *)

Lemma select_loop_spec c assignment vars :
  ∀ threshold selected,
    match selected with
    | Some s => length (neighbors c s) = threshold
    | None => True
    end →
    match select_loop c assignment vars threshold selected with
    | Some v =>
        threshold ≤ length (neighbors c v) ∧
        (∀ u, u ∈ vars → u ∉ PyDict.keys assignment →
              length (neighbors c u) ≤ length (neighbors c v)) ∧
        (selected = Some v ∨
         ∃ before after,
           vars = before ++ v :: after ∧
           (v ∉ PyDict.keys assignment) ∧
           threshold < length (neighbors c v) ∧
           ∀ u, u ∈ before → u ∉ PyDict.keys assignment →
                length (neighbors c u) < length (neighbors c v))
    | None =>
        selected = None ∧
        ∀ u, u ∈ vars → u ∉ PyDict.keys assignment →
             length (neighbors c u) ≤ threshold
    end.
Proof.
  induction vars as [|variable rest IH]; intros threshold selected Hsel;
    cbn [select_loop].
  - destruct selected as [s|].
    + split_and!; [lia| |by left]. by intros u ?%elem_of_nil.
    + split; [done|]. by intros u ?%elem_of_nil.
  - destruct (PyDict.mem variable assignment) eqn:Hmem; cbn [negb].
    + apply PyDict_mem_keys in Hmem. specialize (IH threshold selected Hsel).
      destruct (select_loop c assignment rest threshold selected) as [v|].
      * destruct IH as (Hle & Hmax & Hpos). split_and!; [done| |].
        -- intros u [->|?]%elem_of_cons ?; [done|by apply Hmax].
        -- destruct Hpos as [?|(before & after & -> & ? & ? & Hbefore)];
             [by left|right].
           exists (variable :: before), after. split_and!; [done..|].
           intros u [->|?]%elem_of_cons ?; [done|by apply Hbefore].
      * destruct IH as [? Hmax]. split; [done|].
        intros u [->|?]%elem_of_cons ?; [done|by apply Hmax].
    + assert (variable ∉ PyDict.keys assignment) as Hfresh.
      { rewrite <- PyDict_mem_keys. by rewrite Hmem. }
      destruct (threshold <? length (neighbors c variable)) eqn:Hlt.
      * apply Nat.ltb_lt in Hlt.
        specialize (IH (length (neighbors c variable)) (Some variable)
                       eq_refl).
        destruct (select_loop c assignment rest _ (Some variable)) as [v|];
          [|by destruct IH].
        destruct IH as (Hle & Hmax & Hpos). split_and!; [lia| |].
        -- intros u [->|?]%elem_of_cons ?; [done|by apply Hmax].
        -- right.
           destruct Hpos as [[= <-]|(before & after & -> & ? & ? & Hbefore)].
           ++ exists [], rest. split_and!; [done..|].
              by intros u ?%elem_of_nil.
           ++ exists (variable :: before), after. split_and!; [done|done|lia|].
              intros u [->|?]%elem_of_cons ?; [lia|by apply Hbefore].
      * apply Nat.ltb_ge in Hlt. specialize (IH threshold selected Hsel).
        destruct (select_loop c assignment rest threshold selected) as [v|].
        -- destruct IH as (Hle & Hmax & Hpos). split_and!; [done| |].
           ++ intros u [->|?]%elem_of_cons ?; [lia|by apply Hmax].
           ++ destruct Hpos as [?|(before & after & -> & ? & ? & Hbefore)];
                [by left|right].
              exists (variable :: before), after. split_and!; [done..|].
              intros u [->|?]%elem_of_cons ?; [lia|by apply Hbefore].
        -- destruct IH as [? Hmax]. split; [done|].
           intros u [->|?]%elem_of_cons ?; [lia|by apply Hmax].
Qed.

(** X10. What [select_unassigned_variable] returns is an unassigned
    variable of the crossword that has at least one neighbor and as many
    neighbors as any unassigned variable; among the unassigned variables of
    that degree it is the first in iteration order. The domains play no
    part. *)
Theorem select_unassigned_variable_max_degree c assignment v :
  select_unassigned_variable c assignment = Return v →
  v ∈ variables c ∧
  (v ∉ PyDict.keys assignment) ∧
  0 < length (neighbors c v) ∧
  (∀ u, u ∈ variables c → u ∉ PyDict.keys assignment →
        length (neighbors c u) ≤ length (neighbors c v)) ∧
  ∃ before after,
    variables c = before ++ v :: after ∧
    ∀ u, u ∈ before → u ∉ PyDict.keys assignment →
         length (neighbors c u) < length (neighbors c v).
Proof.
  unfold select_unassigned_variable.
  pose proof (select_loop_spec c assignment (variables c) 0 None I) as Hspec.
  destruct (select_loop c assignment (variables c) 0 None) as [s|]; [|done].
  intros [= ->].
  destruct Hspec as (_ & Hmax & [?|(before & after & Hvars & ? & ? & ?)]);
    [done|].
  split_and!; [|done..|by exists before, after].
  rewrite Hvars. apply elem_of_app. right. left.
Qed.

Lemma select_unassigned_variable_max_degree_witness :
  slotX ∈ variables crossword3 ∧
  (slotX ∉ PyDict.keys []) ∧
  0 < length (neighbors crossword3 slotX) ∧
  (∀ u, u ∈ variables crossword3 → u ∉ PyDict.keys [] →
        length (neighbors crossword3 u) ≤ length (neighbors crossword3 slotX)) ∧
  ∃ before after,
    variables crossword3 = before ++ slotX :: after ∧
    ∀ u, u ∈ before → u ∉ PyDict.keys [] →
         length (neighbors crossword3 u) < length (neighbors crossword3 slotX).
Proof.
  apply (select_unassigned_variable_max_degree crossword3 [] slotX).
  vm_compute. reflexivity.
Defined.

(** X11. [select_unassigned_variable] either returns or raises
    [UnboundLocalError], and it raises exactly when no unassigned variable
    has a neighbor: when every variable is assigned, or when all the
    unassigned ones cross nothing. *)
Theorem select_unassigned_variable_raises_iff c assignment :
  (select_unassigned_variable c assignment = Raise UnboundLocalError
   ↔ ∀ u, u ∈ variables c → u ∉ PyDict.keys assignment →
          neighbors c u = []) ∧
  (select_unassigned_variable c assignment = Raise UnboundLocalError ∨
   ∃ v, select_unassigned_variable c assignment = Return v).
Proof.
  unfold select_unassigned_variable.
  pose proof (select_loop_spec c assignment (variables c) 0 None I) as Hspec.
  destruct (select_loop c assignment (variables c) 0 None) as [s|].
  - split; [|right; by exists s]. split; [done|]. intros Hiso. exfalso.
    destruct Hspec as (_ & _ & [?|(before & after & Hvars & ? & Hdeg & _)]);
      [done|].
    rewrite Hiso in Hdeg; [simpl in Hdeg; lia| |done].
    rewrite Hvars. apply elem_of_app. right. left.
  - split; [|by left]. split; [|done]. intros _ u Hu Hfresh.
    destruct Hspec as [_ Hmax]. specialize (Hmax u Hu Hfresh).
    destruct (neighbors c u); [done|simpl in Hmax; lia].
Qed.

(** ** [order_domain_values] *)

Lemma count_conflicts_exact i j value confronts count :
  i < String.length value →
  Forall (λ w, j < String.length w) confronts →
  count_conflicts (Some (i, j)) value confronts count
  = Return (count + disagreements i j value confronts).
Proof.
  intros Hi Hj. revert count. unfold disagreements.
  induction Hj as [|confront rest Hj Hrest IH]; intros count;
    cbn [count_conflicts].
  - f_equal. simpl. lia.
  - rewrite overlap_agree_bounds by done. rewrite IH.
    destruct (agree_at i j value confront) eqn:Hag.
    + by rewrite filter_cons_False by (by rewrite Hag).
    + rewrite filter_cons_True by done. f_equal. simpl. lia.
Qed.

Lemma count_ruled_out_exact c st var value nbrs count :
  wf_crossword c → store_ok c st →
  String.length value = var_length var →
  nbrs ⊆ neighbors c var →
  count_ruled_out c var value nbrs count st
  = (Return
       (count +
        sum_list_with
          (λ neighbor,
             match overlaps c var neighbor with
             | Some (i, j) =>
                 disagreements i j value (default [] (st !! neighbor))
             | None => 0
             end) nbrs), st).
Proof.
  intros Hwf Hst Hlen. revert count.
  induction nbrs as [|neighbor rest IH]; intros count Hsub;
    cbn [count_ruled_out sum_list_with].
  - unfold ret. do 2 f_equal. lia.
  - assert (neighbor ∈ neighbors c var) as Hn by (apply Hsub; left).
    destruct (wf_neighbors_overlap _ Hwf _ _ Hn) as (i & j & Hov & Hi & Hj).
    destruct (Hst neighbor) as (d & Hd & _ & Hlens);
      [by eapply wf_neighbors_variables|].
    erewrite bind_Return by by apply get_domain_Some.
    rewrite Hov, Hd. simpl.
    rewrite count_conflicts_exact;
      [|lia|eapply Forall_impl; [done|simpl; lia]].
    erewrite bind_Return by apply lift_run.
    rewrite IH by (intros z ?; apply Hsub; by right).
    do 2 f_equal. lia.
Qed.

Lemma score_values_exact c st assignment var values helper_list :
  wf_crossword c → store_ok c st →
  Forall (λ w, String.length w = var_length var) values →
  score_values c var
    (set_minus (neighbors c var) (PyDict.keys assignment)) values
    helper_list st
  = (Return (helper_list
             ++ ((λ v, (v, ruled_out c st assignment var v)) <$> values)),
     st).
Proof.
  intros Hwf Hst Hvalues. revert helper_list.
  induction Hvalues as [|value rest Hlen Hrest IH]; intros helper_list;
    cbn [score_values].
  - by rewrite app_nil_r.
  - erewrite bind_Return; last first.
    { apply count_ruled_out_exact; [done..|].
      by intros z [_ ?]%list_elem_of_filter. }
    rewrite IH. rewrite <- app_assoc. done.
Qed.

Lemma insert_by_count_perm p l : insert_by_count p l ≡ₚ p :: l.
Proof.
  induction l as [|q l IH]; simpl; [done|].
  destruct (p.2 <=? q.2); [done|]. rewrite IH. apply Permutation_swap.
Qed.

Lemma sort_by_count_perm l : sort_by_count l ≡ₚ l.
Proof.
  unfold sort_by_count. induction l as [|p l IH]; simpl; [done|].
  by rewrite insert_by_count_perm, IH.
Qed.

Lemma insert_by_count_sorted (r : string → nat) p l :
  p.2 = r p.1 → Forall (λ q, q.2 = r q.1) l →
  StronglySorted (λ v w, r v ≤ r w) (l.*1) →
  StronglySorted (λ v w, r v ≤ r w) ((insert_by_count p l).*1).
Proof.
  intros Hp. induction l as [|q l IH]; intros Hl Hsorted; simpl.
  - repeat constructor.
  - apply Forall_cons in Hl as [Hq Hl]. simpl in Hsorted.
    apply StronglySorted_inv in Hsorted as [Hsorted Hhead].
    destruct (p.2 <=? q.2) eqn:Hle.
    + apply Nat.leb_le in Hle. simpl. constructor.
      * by constructor.
      * constructor; [lia|]. eapply Forall_impl; [done|]. simpl. lia.
    + apply Nat.leb_gt in Hle. simpl. constructor; [by apply IH|].
      rewrite insert_by_count_perm. simpl. constructor; [lia|done].
Qed.

Lemma sort_by_count_sorted (r : string → nat) l :
  Forall (λ q, q.2 = r q.1) l →
  StronglySorted (λ v w, r v ≤ r w) ((sort_by_count l).*1).
Proof.
  unfold sort_by_count. induction 1 as [|p l Hp Hl IH]; simpl.
  - constructor.
  - apply insert_by_count_sorted; [done| |done].
    fold (sort_by_count l). by rewrite sort_by_count_perm.
Qed.

(** X12. On a well-formed crossword and store, [order_domain_values]
    returns without touching the store. Its result holds the candidates of
    [domains[var]], each once, in ascending order of the number of
    candidates they rule out in the domains of the unassigned neighbors of
    [var]. *)
Theorem order_domain_values_least_constraining c var assignment st :
  wf_crossword c → store_ok c st → var ∈ variables c →
  ∃ orderedlist d,
    st !! var = Some d ∧
    order_domain_values c var assignment st = (Return orderedlist, st) ∧
    orderedlist ≡ₚ d ∧
    StronglySorted (λ v w, ruled_out c st assignment var v
                           ≤ ruled_out c st assignment var w) orderedlist.
Proof.
  intros Hwf Hst Hvar. destruct (Hst var Hvar) as (d & Hd & _ & Hlens).
  set (scored := (λ v, (v, ruled_out c st assignment var v)) <$> d).
  exists ((sort_by_count scored).*1), d. split_and!.
  - done.
  - unfold order_domain_values.
    erewrite bind_Return by by apply get_domain_Some.
    erewrite bind_Return by by apply score_values_exact.
    done.
  - rewrite sort_by_count_perm. unfold scored.
    rewrite <- list_fmap_compose. by rewrite list_fmap_id.
  - apply sort_by_count_sorted. unfold scored.
    apply Forall_fmap, Forall_forall. by intros v _.
Qed.

Lemma domains3_store_ok : store_ok crossword3 domains3.
Proof.
  intros v Hv. simpl in Hv.
  repeat (apply elem_of_cons in Hv as [->|Hv]);
    [| | |by apply elem_of_nil in Hv];
    eexists; (split_and!; [by vm_compute|by apply (bool_decide_unpack _)|]);
    repeat constructor.
Qed.

Lemma order_domain_values_least_constraining_witness :
  ∃ orderedlist d,
    domains3 !! slotX = Some d ∧
    order_domain_values crossword3 slotX [] domains3
    = (Return orderedlist, domains3) ∧
    orderedlist ≡ₚ d ∧
    StronglySorted (λ v w, ruled_out crossword3 domains3 [] slotX v
                           ≤ ruled_out crossword3 domains3 [] slotX w)
                   orderedlist.
Proof.
  apply (order_domain_values_least_constraining crossword3 slotX [] domains3).
  - apply crossword3_wf.
  - apply domains3_store_ok.
  - by apply (bool_decide_unpack _).
Defined.

(** ** [solve] *)

(** X16. A crossword without variables is solved by the empty assignment,
    whatever its word list: nothing is propagated and the search accepts
    the empty dictionary as complete. *)
Theorem solve_no_variables c fuel :
  variables c = [] → solve c (S fuel) = (Return (Some []), ∅).
Proof.
  intros Hvars.
  unfold solve, solve_from, init_domains, enforce_node_consistency, ac3,
    create_arcs.
  rewrite Hvars. cbn [fmap list_fmap foldl enforce_node_consistency_vars].
  erewrite (bind_Return (ret tt)) by done.
  erewrite (bind_Return (ac3_loop c (S fuel) [])) by done.
  cbn [backtrack]. unfold assignment_complete. rewrite Hvars.
  by rewrite bool_decide_eq_true_2.
Qed.

Lemma solve_no_variables_witness :
  solve (mkCrossword [] ["CAT"] (λ _ _, None) (λ _, [])) 1
  = (Return (Some []), ∅).
Proof.
  apply (solve_no_variables (mkCrossword [] ["CAT"] (λ _ _, None) (λ _, [])) 0).
  reflexivity.
Defined.

Lemma shrunk_listed c st st' : shrunk st st' → listed c st → listed c st'.
Proof.
  intros Hsh Hl v d' Hd'. destruct (Hsh v d' Hd') as (d & Hd & Hsub).
  etrans; [done|]. by eapply Hl.
Qed.

Lemma domain_remove_shrunk x v st r st' :
  domain_remove x v st = (r, st') → shrunk st st'.
Proof.
  unfold domain_remove, bind, get_domain, raise.
  destruct (st !! x) as [d|] eqn:Hd; [|intros [= <- <-]; apply shrunk_refl].
  destruct (PySet.remove v d) as [d'|] eqn:Hrm; intros [= <- <-];
    [|apply shrunk_refl].
  intros z dz. destruct (decide (z = x)) as [->|Hzx].
  - rewrite lookup_insert_eq. intros [= <-]. exists d. split; [done|].
    by eapply PySet_remove_subseteq.
  - rewrite lookup_insert_ne by done. intros ?. by exists dz.
Qed.

Lemma enforce_node_consistency_values_shrunk var values st r st' :
  enforce_node_consistency_values var values st = (r, st') → shrunk st st'.
Proof.
  revert st. induction values as [|value rest IH]; intros st;
    cbn [enforce_node_consistency_values].
  - intros [= <- <-]. apply shrunk_refl.
  - assert (∀ r1 st1,
              (if decide (String.length value ≠ var_length var)
               then domain_remove var value else ret tt) st = (r1, st1) →
              shrunk st st1) as Hstep.
    { intros r1 st1. case_decide; [apply domain_remove_shrunk|].
      intros [= <- <-]. apply shrunk_refl. }
    intros [(u & st1 & Hr & Hk)|[(e & Hr & _)|[Hr _]]]%bind_run;
      try by eapply Hstep.
    eapply shrunk_trans; [by eapply Hstep|by eapply IH].
Qed.

Lemma enforce_node_consistency_vars_shrunk c vars st r st' :
  enforce_node_consistency_vars c vars st = (r, st') → shrunk st st'.
Proof.
  revert st. induction vars as [|var rest IH]; intros st;
    cbn [enforce_node_consistency_vars].
  - intros [= <- <-]. apply shrunk_refl.
  - intros [(u & st1 & Hr & Hk)|[(e & Hr & _)|[Hr _]]]%bind_run;
      try by eapply enforce_node_consistency_values_shrunk.
    eapply shrunk_trans;
      [by eapply enforce_node_consistency_values_shrunk|by eapply IH].
Qed.

Lemma init_domains_listed c : listed c (init_domains c).
Proof.
  intros v d. rewrite init_domains_lookup. case_decide; [|done].
  by intros [= <-].
Qed.

Lemma count_ruled_out_state c var value nbrs count st r st' :
  count_ruled_out c var value nbrs count st = (r, st') → st' = st.
Proof.
  revert count. induction nbrs as [|neighbor rest IH]; intros count;
    cbn [count_ruled_out].
  - by intros [= _ <-].
  - intros [(d & st1 & Hg & Hk)|[(e & Hg & _)|[Hg _]]]%bind_run;
      apply get_domain_run in Hg as [-> _]; try done.
    apply bind_run in Hk as [(n & st2 & Hl & Hk)|[(e & Hl & _)|[Hl _]]];
      unfold lift in Hl; injection Hl as _ <-; try done.
    by eapply IH.
Qed.

Lemma score_values_run c var nbrs values helper_list st scored st' :
  score_values c var nbrs values helper_list st = (Return scored, st') →
  st' = st ∧ scored.*1 = helper_list.*1 ++ values.
Proof.
  revert helper_list.
  induction values as [|value rest IH]; intros helper_list;
    cbn [score_values].
  - intros [= <- <-]. by rewrite app_nil_r.
  - intros [(n & st1 & Hc & Hk)|[(e & _ & ?)|[_ ?]]]%bind_run; [|done..].
    apply count_ruled_out_state in Hc as ->.
    apply IH in Hk as [-> ->]. split; [done|].
    rewrite fmap_app. simpl. by rewrite <- app_assoc.
Qed.

(** Whenever [order_domain_values] returns, the store is untouched and
    the result is a rearrangement of [domains[var]]. *)
Lemma order_domain_values_run c var assignment st orderedlist st' :
  order_domain_values c var assignment st = (Return orderedlist, st') →
  st' = st ∧ ∃ d, st !! var = Some d ∧ orderedlist ≡ₚ d.
Proof.
  unfold order_domain_values.
  intros [(d & st1 & Hg & Hk)|[(e & _ & ?)|[_ ?]]]%bind_run; [|done..].
  apply get_domain_run in Hg as [-> [|(d' & Hd & [= <-])]]; [done|].
  apply bind_run in Hk as [(scored & st2 & Hs & Hk)|[(e & _ & ?)|[_ ?]]];
    [|done..].
  apply score_values_run in Hs as [-> Hscored].
  unfold ret in Hk. injection Hk as <- <-. split; [done|].
  exists d. split; [done|]. by rewrite sort_by_count_perm, Hscored.
Qed.

Lemma PyDict_set_elem k v d k' v' :
  (k', v') ∈ PyDict.set k v d → (k', v') ∈ d ∨ v' = v.
Proof.
  induction d as [|[k0 v0] d IH]; simpl.
  - intros [= _ ->]%list_elem_of_singleton. by right.
  - case_decide.
    + intros [[= _ ->]|?]%elem_of_cons; [by right|left; by right].
    + intros [->|[?|?]%IH]%elem_of_cons; [left; left|left; by right|by right].
Qed.

Lemma PyDict_pop_elem k d d' kv :
  PyDict.pop k d = Some d' → kv ∈ d' → kv ∈ d.
Proof.
  revert d'. induction d as [|[k0 v0] d IH]; intros d'; simpl; [done|].
  case_decide.
  - intros [= <-] ?. by right.
  - destruct (PyDict.pop k d) as [d''|]; [|done]. intros [= <-].
    intros [->|?]%elem_of_cons; [left|right; by eapply IH].
Qed.

Lemma assign_singletons_listed c elements st r st' :
  assign_singletons elements st = (r, st') →
  listed c st → (∀ kv, kv ∈ elements → kv.2 ∈ words c) → listed c st'.
Proof.
  revert st. induction elements as [|[element value] rest IH]; intros st;
    cbn [assign_singletons].
  - by intros [= _ <-].
  - unfold bind at 1, domain_assign. intros Hk Hl Hvalues.
    eapply IH; [done| |].
    + intros v d. destruct (decide (v = element)) as [->|Hne].
      * rewrite lookup_insert_eq. intros [= <-] w ->%list_elem_of_singleton.
        apply (Hvalues (element, value)). left.
      * rewrite lookup_insert_ne by done. apply Hl.
    + intros kv ?. apply Hvalues. by right.
Qed.

Section WordsListed.

Variable crossword : Crossword.

Lemma inference_listed fuel var assignment st r st' :
  inference crossword fuel var assignment st = (r, st') →
  listed crossword st →
  (∀ kv, kv ∈ assignment → kv.2 ∈ words crossword) →
  listed crossword st'.
Proof.
  unfold inference. case_decide; [|by intros [= _ <-]].
  unfold bind at 1, snapshot. intros Hk Hl Hvalues.
  apply bind_run in Hk as [(u & st1 & Ha & Hk)|[(e & Ha & _)|[Ha _]]];
    try by eapply assign_singletons_listed.
  pose proof (assign_singletons_listed _ _ _ _ _ Ha Hl Hvalues) as Hl1.
  apply bind_run in Hk as [(ok & st2 & Hac & Hk)|[(e & Hac & _)|[Hac _]]];
    try (eapply shrunk_listed; [by eapply ac3_loop_shrunk|done]).
  destruct ok.
  - unfold ret in Hk. injection Hk as _ <-.
    eapply shrunk_listed; [by eapply ac3_loop_shrunk|done].
  - unfold restore in Hk. by injection Hk as _ <-.
Qed.

Lemma backtrack_values_listed rec fuel var values assignment st r a' st' :
  (∀ a s r1 a1 s1,
     rec a s = (Return (r1, a1), s1) →
     listed crossword s → (∀ kv, kv ∈ a → kv.2 ∈ words crossword) →
     listed crossword s1 ∧ ∀ kv, kv ∈ a1 → kv.2 ∈ words crossword) →
  backtrack_values crossword rec fuel var values assignment st
  = (Return (r, a'), st') →
  listed crossword st → values ⊆ words crossword →
  (∀ kv, kv ∈ assignment → kv.2 ∈ words crossword) →
  listed crossword st' ∧ ∀ kv, kv ∈ a' → kv.2 ∈ words crossword.
Proof.
  intros Hrec. revert assignment st.
  induction values as [|value rest IH]; intros assignment st;
    cbn [backtrack_values].
  - by intros [= _ <- <-].
  - intros Hk Hl Hvalues Ha.
    assert (∀ kv, kv ∈ PyDict.set var value assignment →
                  kv.2 ∈ words crossword) as Ha1.
    { intros [k w] [?| ->]%PyDict_set_elem; [by apply Ha|].
      apply Hvalues. left. }
    assert (rest ⊆ words crossword) as Hrest.
    { intros w ?. apply Hvalues. by right. }
    apply bind_run in Hk as [(ok & st1 & Hc & Hk)|[(e & _ & ?)|[_ ?]]];
      [|done..].
    unfold lift in Hc. injection Hc as Hc <-.
    apply bind_run in Hk as [([res a1] & st2 & Hb & Hk)|[(e & _ & ?)|[_ ?]]];
      [|done..].
    assert (listed crossword st2 ∧ ∀ kv, kv ∈ a1 → kv.2 ∈ words crossword)
      as [Hl2 Ha2].
    { destruct ok.
      - apply bind_run in Hb as [(u & st3 & Hi & Hb)|[(e & _ & ?)|[_ ?]]];
          [|done..].
        eapply Hrec; [done| |done]. by eapply inference_listed.
      - unfold ret in Hb. by injection Hb as _ <- <-. }
    destruct res as [result|].
    + unfold ret in Hk. by injection Hk as _ <- <-.
    + destruct (PyDict.pop var a1) as [a2|] eqn:Hpop; [|done].
      eapply IH; [done..|]. intros kv ?. apply Ha2.
      by eapply PyDict_pop_elem.
Qed.

Lemma backtrack_listed fuel assignment st r a' st' :
  backtrack crossword fuel assignment st = (Return (r, a'), st') →
  listed crossword st →
  (∀ kv, kv ∈ assignment → kv.2 ∈ words crossword) →
  listed crossword st' ∧ ∀ kv, kv ∈ a' → kv.2 ∈ words crossword.
Proof.
  revert assignment st r a' st'.
  induction fuel as [|fuel IH]; intros assignment st r a' st';
    cbn [backtrack]; [done|].
  case_match.
  - by intros [= _ <- <-].
  - intros [(var & st1 & Hs & Hk)|[(e & _ & ?)|[_ ?]]]%bind_run Hl Ha;
      [|done..].
    unfold lift in Hs. injection Hs as _ <-.
    apply bind_run in Hk as [(ol & st2 & Ho & Hk)|[(e & _ & ?)|[_ ?]]];
      [|done..].
    apply order_domain_values_run in Ho as [-> (d & Hd & Hperm)].
    eapply backtrack_values_listed; [|done..| |done].
    + intros a s r1 a1 s1. apply IH.
    + intros w Hw. rewrite Hperm in Hw. by eapply Hl.
Qed.

End WordsListed.

(** X15. Every word of an assignment returned by [solve] is taken from
    the word list of the crossword. *)
Theorem solve_words_listed c fuel assignment st :
  solve c fuel = (Return (Some assignment), st) →
  ∀ v w, (v, w) ∈ assignment → w ∈ words c.
Proof.
  unfold solve, solve_from.
  intros [(u & st1 & He & Hk)|[(e & _ & ?)|[_ ?]]]%bind_run; [|done..].
  apply bind_run in Hk as [(b & st2 & Hac & Hk)|[(e & _ & ?)|[_ ?]]];
    [|done..].
  apply bind_run in Hk as [([r a'] & st3 & Hb & Hk)|[(e & _ & ?)|[_ ?]]];
    [|done..].
  unfold ret in Hk. simpl in Hk. injection Hk as -> <-.
  assert (listed c st2) as Hl.
  { eapply shrunk_listed; [by eapply ac3_loop_shrunk|].
    eapply shrunk_listed; [by eapply enforce_node_consistency_vars_shrunk|].
    apply init_domains_listed. }
  pose proof Hb as Hsound.
  apply backtrack_sound in Hsound as [<- _];
    [|done|apply NoDup_nil_2|set_solver].
  apply backtrack_listed in Hb as [_ Ha]; [|done|by intros kv ?%elem_of_nil].
  intros v w Hvw. apply (Ha (v, w) Hvw).
Qed.

Lemma solve_words_listed_witness : "GOAT" ∈ words crossword3.
Proof.
  apply (solve_words_listed crossword3 8
           [(slotX, "DOG"); (slotY, "DO"); (slotZ, "GOAT")]
           (solve crossword3 8).2 ltac:(vm_compute; reflexivity) slotZ).
  by apply (bool_decide_unpack _).
Defined.

(** ** The grid of letters *)

Lemma grid_set_inside width height letters i j ch :
  shape width height letters → i < height → j < width →
  ∃ letters',
    grid_set letters i j ch = Some letters' ∧
    shape width height letters' ∧
    ∀ i' j', cell letters' i' j'
             = if decide (i' = i ∧ j' = j) then Some (Some ch)
               else cell letters i' j'.
Proof.
  intros [Hh Hw] Hi Hj. unfold grid_set.
  destruct (letters !! i) as [row|] eqn:Hrow; last first.
  { apply lookup_ge_None in Hrow. lia. }
  assert (length row = width) as Hlen.
  { rewrite Forall_forall in Hw. apply Hw. by eapply list_elem_of_lookup_2. }
  rewrite decide_True by lia. eexists. split_and!; [done| |].
  - split; [by rewrite length_insert|].
    apply Forall_insert; [done|]. by rewrite length_insert.
  - intros i' j'. unfold cell. destruct (decide (i' = i)) as [->|Hne].
    + rewrite list_lookup_insert_eq by lia. rewrite Hrow.
      destruct (decide (j' = j)) as [->|Hne'].
      * rewrite decide_True by done. apply list_lookup_insert_eq. lia.
      * rewrite decide_False by tauto. by apply list_lookup_insert_ne.
    + rewrite decide_False by tauto. by rewrite list_lookup_insert_ne.
Qed.

Lemma grid_set_outside width height letters i j ch :
  shape width height letters → ¬ (i < height ∧ j < width) →
  grid_set letters i j ch = None.
Proof.
  intros [Hh Hw] Hout. unfold grid_set.
  destruct (letters !! i) as [row|] eqn:Hrow; [|done].
  assert (length row = width) as Hlen.
  { rewrite Forall_forall in Hw. apply Hw. by eapply list_elem_of_lookup_2. }
  apply lookup_lt_Some in Hrow. rewrite decide_False; [done|lia].
Qed.

Lemma content_write width height letters letters' P i j ch :
  content width height letters P →
  shape width height letters' →
  (∀ i' j', cell letters' i' j'
            = if decide (i' = i ∧ j' = j) then Some (Some ch)
              else cell letters i' j') →
  content width height letters'
          (λ i' j' ch', P i' j' ch' ∨ (i' = i ∧ j' = j ∧ ch' = ch)).
Proof.
  intros [_ Hc] Hshape Hcell. split; [done|]. intros i' j' Hi' Hj'.
  rewrite Hcell. case_decide as Heq.
  - right. by destruct Heq.
  - specialize (Hc i' j' Hi' Hj').
    destruct (cell letters i' j') as [[ch'|]|]; [by left| |done].
    intros ch' [?|(? & ? & _)]; [by eapply Hc|tauto].
Qed.

Lemma content_equiv width height letters P Q :
  (∀ i j ch, P i j ch ↔ Q i j ch) →
  content width height letters P → content width height letters Q.
Proof.
  intros HPQ [Hshape Hc]. split; [done|]. intros i j Hi Hj.
  specialize (Hc i j Hi Hj).
  destruct (cell letters i j) as [[ch|]|]; [by apply HPQ| |done].
  intros ch ?%HPQ. by eapply Hc.
Qed.

Lemma write_word_content width height variable word ks letters letters' P :
  content width height letters P →
  write_word variable word ks letters = Return letters' →
  content width height letters'
    (λ i j ch, P i j ch ∨
               ∃ k, k ∈ ks ∧ char_at word k = Some ch ∧
                    cell_of variable k = (i, j)).
Proof.
  revert letters P. induction ks as [|k rest IH]; intros letters P Hc;
    cbn [write_word].
  - intros [= <-]. eapply content_equiv; [|done].
    intros i j ch. split; [by left|]. by intros [?|(k & ?%elem_of_nil & _)].
  - destruct (char_at word k) as [ch|] eqn:Hch; [|done].
    destruct (grid_set letters _ _ ch) as [letters1|] eqn:Hset; [|done].
    intros Hrun.
    destruct (decide ((cell_of variable k).1 < height
                      ∧ (cell_of variable k).2 < width)) as [[Hi Hj]|Hout];
      last first.
    { destruct Hc as [Hshape _].
      by rewrite (grid_set_outside _ _ _ _ _ _ Hshape Hout) in Hset. }
    destruct (grid_set_inside _ _ _ _ _ ch (proj1 Hc) Hi Hj)
      as (letters1' & Hset' & Hshape1 & Hcell1).
    rewrite Hset in Hset'. injection Hset' as <-.
    pose proof (content_write _ _ _ _ _ _ _ _ Hc Hshape1 Hcell1) as Hc1.
    eapply content_equiv; [|by eapply IH].
    intros i j ch'. split.
    + intros [[?|(-> & -> & ->)]|(k' & ? & ? & ?)].
      * by left.
      * right. exists k. split_and!; [left|done|].
        by destruct (cell_of variable k).
      * right. exists k'. split_and!; [by right|done..].
    + intros [?|(k' & [->|?]%elem_of_cons & Hch' & Hcell')].
      * by left; left.
      * left. right. rewrite Hch in Hch'. injection Hch' as ->.
        by rewrite Hcell'.
      * right. by exists k'.
Qed.

Lemma write_words_content width height items letters letters' P :
  content width height letters P →
  write_words items letters = Return letters' →
  content width height letters'
          (λ i j ch, P i j ch ∨ covers items i j ch).
Proof.
  revert letters P.
  induction items as [|[variable word] rest IH]; intros letters P Hc;
    cbn [write_words].
  - intros [= <-]. eapply content_equiv; [|done].
    intros i j ch. split; [by left|].
    by intros [?|(? & ? & ? & ?%elem_of_nil & _)].
  - destruct (write_word variable word _ letters) as [letters1| |] eqn:Hw;
      [|done..].
    intros Hrun.
    pose proof (write_word_content _ _ _ _ _ _ _ _ Hc Hw) as Hc1.
    eapply content_equiv; [|by eapply IH].
    intros i j ch. unfold covers. split.
    + intros [[?|(k & ? & ? & ?)]|(v' & w' & k & ? & ? & ?)].
      * by left.
      * right. exists variable, word, k. split_and!; [left|done..].
      * right. exists v', w', k. split_and!; [by right|done..].
    + intros [?|(v' & w' & k & [[= -> ->]|?]%elem_of_cons & Hch & ?)].
      * by left; left.
      * left. right. exists k. split_and!; [|done..].
        apply elem_of_seq. split; [lia|]. simpl.
        destruct (decide (k < String.length word)) as [?|Hge]; [done|].
        exfalso. unfold char_at in Hch. clear -Hch Hge.
        revert k Hch Hge. induction word as [|c word IH]; intros k; simpl;
          [done|].
        destruct k as [|k]; [lia|]. intros ? ?. apply (IH k); [done|lia].
      * right. by exists v', w', k.
Qed.

Lemma replicate_content width height :
  content width height (replicate height (replicate width None))
          (λ _ _ _, False).
Proof.
  split.
  - split; [by rewrite length_replicate|].
    apply Forall_replicate. by rewrite length_replicate.
  - intros i j Hi Hj. unfold cell.
    rewrite lookup_replicate_2 by done. rewrite lookup_replicate_2 by done.
    intros ch H. exact H.
Qed.

(** X18. What [letter_grid] returns is a grid of the given height and
    width. A cell holds a letter only if some assigned word has that letter
    on that cell, and a cell no assigned word passes through is empty; in
    particular, when the words that share a cell agree on its letter, the
    cell holds that letter. *)
Theorem letter_grid_content width height assignment letters :
  letter_grid width height assignment = Return letters →
  shape width height letters ∧
  (∀ i j, i < height → j < width →
     match cell letters i j with
     | Some (Some ch) => covers assignment i j ch
     | Some None => ∀ ch, ¬ covers assignment i j ch
     | None => False
     end) ∧
  (∀ i j ch,
     i < height → j < width →
     covers assignment i j ch →
     (∀ ch', covers assignment i j ch' → ch' = ch) →
     cell letters i j = Some (Some ch)).
Proof.
  intros Hrun. unfold letter_grid in Hrun.
  pose proof (write_words_content _ _ _ _ _ _
                (replicate_content width height) Hrun) as Hc.
  apply (content_equiv _ _ _ _ (covers assignment)) in Hc;
    [|intros i j ch; split; [by intros [[]|?]|by right]].
  destruct Hc as [Hshape Hc]. split_and!; [done..|].
  intros i j ch Hi Hj Hcov Hagree. specialize (Hc i j Hi Hj).
  destruct (cell letters i j) as [[ch'|]|]; [|by destruct (Hc ch)|done].
  by rewrite (Hagree ch' Hc).
Qed.

Lemma letter_grid_content_witness :
  shape 3 4 grid3 ∧
  (∀ i j, i < 4 → j < 3 →
     match cell grid3 i j with
     | Some (Some ch) => covers assignment3 i j ch
     | Some None => ∀ ch, ¬ covers assignment3 i j ch
     | None => False
     end) ∧
  (∀ i j ch,
     i < 4 → j < 3 →
     covers assignment3 i j ch →
     (∀ ch', covers assignment3 i j ch' → ch' = ch) →
     cell grid3 i j = Some (Some ch)).
Proof.
  apply (letter_grid_content 3 4 assignment3). vm_compute. reflexivity.
Defined.

Lemma write_word_outcome width height variable word ks letters :
  shape width height letters →
  write_word variable word ks letters = Raise IndexError ∨
  ∃ letters',
    write_word variable word ks letters = Return letters' ∧
    shape width height letters' ∧
    ∀ k, k ∈ ks → (cell_of variable k).1 < height
                  ∧ (cell_of variable k).2 < width.
Proof.
  revert letters. induction ks as [|k rest IH]; intros letters Hshape;
    cbn [write_word].
  - right. exists letters. split_and!; [done..|]. by intros k ?%elem_of_nil.
  - destruct (char_at word k) as [ch|]; [|by left].
    destruct (decide ((cell_of variable k).1 < height
                      ∧ (cell_of variable k).2 < width)) as [[Hi Hj]|Hout].
    + destruct (grid_set_inside _ _ _ _ _ ch Hshape Hi Hj)
        as (letters1 & -> & Hshape1 & _).
      destruct (IH letters1 Hshape1) as [?|(letters' & ? & ? & Hin)];
        [by left|right].
      exists letters'. split_and!; [done..|].
      intros k' [->|?]%elem_of_cons; auto.
    + rewrite (grid_set_outside _ _ _ _ _ _ Hshape Hout). by left.
Qed.

Lemma write_word_inside width height variable word ks letters :
  shape width height letters →
  (∀ k, k ∈ ks → k < String.length word ∧
                 (cell_of variable k).1 < height ∧
                 (cell_of variable k).2 < width) →
  ∃ letters',
    write_word variable word ks letters = Return letters' ∧
    shape width height letters'.
Proof.
  revert letters. induction ks as [|k rest IH]; intros letters Hshape Hin;
    cbn [write_word]; [by exists letters|].
  destruct (Hin k) as (Hk & Hi & Hj); [left|].
  destruct (char_at_lt _ _ Hk) as [ch ->].
  destruct (grid_set_inside _ _ _ _ _ ch Hshape Hi Hj)
    as (letters1 & -> & Hshape1 & _).
  apply IH; [done|]. intros k' ?. apply Hin. by right.
Qed.

Lemma write_words_outcome width height items letters :
  shape width height letters →
  write_words items letters = Raise IndexError ∨
  ∃ letters',
    write_words items letters = Return letters' ∧
    ∀ variable word k,
      (variable, word) ∈ items → k < String.length word →
      (cell_of variable k).1 < height ∧ (cell_of variable k).2 < width.
Proof.
  revert letters.
  induction items as [|[variable word] rest IH]; intros letters Hshape;
    cbn [write_words].
  - right. exists letters. split; [done|].
    by intros ? ? ? ?%elem_of_nil.
  - destruct (write_word_outcome width height variable word
                (seq 0 (String.length word)) letters Hshape)
      as [->|(letters1 & -> & Hshape1 & Hin1)]; [by left|].
    destruct (IH letters1 Hshape1) as [?|(letters' & ? & Hin)];
      [by left|right].
    exists letters'. split; [done|].
    intros v w k [[= -> ->]|?]%elem_of_cons Hk; [|by eapply Hin].
    apply Hin1, elem_of_seq. lia.
Qed.

Lemma write_words_inside width height items letters :
  shape width height letters →
  (∀ variable word k,
     (variable, word) ∈ items → k < String.length word →
     (cell_of variable k).1 < height ∧ (cell_of variable k).2 < width) →
  ∃ letters', write_words items letters = Return letters'.
Proof.
  revert letters.
  induction items as [|[variable word] rest IH]; intros letters Hshape Hin;
    cbn [write_words]; [by exists letters|].
  destruct (write_word_inside width height variable word
              (seq 0 (String.length word)) letters Hshape)
    as (letters1 & -> & Hshape1).
  { intros k [_ Hk]%elem_of_seq. simpl in Hk. split; [done|].
    apply (Hin variable word k); [left|done]. }
  apply IH; [done|]. intros v w k ? ?. apply (Hin v w k); [by right|done].
Qed.

(** X17. [letter_grid] returns a grid exactly when every letter of every
    assigned word falls inside the grid; as soon as one falls outside, the
    assignment to [letters[i][j]] raises [IndexError]. *)
Theorem letter_grid_bounds width height assignment :
  ((∀ variable word k,
      (variable, word) ∈ assignment → k < String.length word →
      (cell_of variable k).1 < height ∧ (cell_of variable k).2 < width) →
   ∃ letters, letter_grid width height assignment = Return letters) ∧
  ((∃ variable word k,
      (variable, word) ∈ assignment ∧ k < String.length word ∧
      ¬ ((cell_of variable k).1 < height ∧ (cell_of variable k).2 < width)) →
   letter_grid width height assignment = Raise IndexError).
Proof.
  unfold letter_grid.
  pose proof (proj1 (replicate_content width height)) as Hshape. split.
  - by apply write_words_inside.
  - intros (variable & word & k & Hin & Hk & Hout).
    destruct (write_words_outcome width height assignment _ Hshape)
      as [?|(letters' & _ & Hall)]; [done|].
    destruct Hout. by eapply Hall.
Qed.

Lemma letter_grid_bounds_witness :
  ((∀ variable word k,
      (variable, word) ∈ assignment3 → k < String.length word →
      (cell_of variable k).1 < 3 ∧ (cell_of variable k).2 < 3) →
   ∃ letters, letter_grid 3 3 assignment3 = Return letters) ∧
  ((∃ variable word k,
      (variable, word) ∈ assignment3 ∧ k < String.length word ∧
      ¬ ((cell_of variable k).1 < 3 ∧ (cell_of variable k).2 < 3)) →
   letter_grid 3 3 assignment3 = Raise IndexError).
Proof. apply (letter_grid_bounds 3 3 assignment3). Defined.

(** ** More on [revise] and on the search *)

(** X19. [revise] is idempotent: under the conditions of X3, a second
    call on the store left by the first one returns [False] and changes
    nothing. *)
Theorem revise_idempotent c x y i j st dx dy :
  x ≠ y → overlaps c x y = Some (i, j) →
  st !! x = Some dx → st !! y = Some dy → NoDup dx →
  Forall (λ v, i < String.length v) dx →
  Forall (λ w, j < String.length w) dy →
  ∃ b st1,
    revise c x y st = (Return b, st1) ∧
    revise c x y st1 = (Return false, st1).
Proof.
  intros Hxy Hov Hx Hy Hnd Hi Hj.
  set (dx' := filter (supported i j dy) dx).
  exists (last_unsupported i j dy dx), (<[x := dx']> st).
  split; [by apply revise_exact|].
  destruct (all_supported_fixpoint i j dy dx') as [Hfilter Hflag].
  { intros v [Hv _]%list_elem_of_filter. by destruct (supported i j dy v). }
  rewrite (revise_exact c x y i j (<[x := dx']> st) dx' dy); try done.
  - rewrite Hflag, Hfilter. by rewrite insert_insert_eq.
  - by rewrite lookup_insert_eq.
  - by rewrite lookup_insert_ne.
  - by apply NoDup_filter.
  - by apply Forall_filter_keep.
Qed.

Lemma revise_idempotent_witness :
  ∃ b st1,
    revise crossword3 slotX slotY domains3 = (Return b, st1) ∧
    revise crossword3 slotX slotY st1 = (Return false, st1).
Proof.
  apply (revise_idempotent crossword3 slotX slotY 0 0 domains3
           ["CAT"; "DOG"] ["DO"]).
  - vm_compute. discriminate.
  - vm_compute. reflexivity.
  - vm_compute. reflexivity.
  - vm_compute. reflexivity.
  - by apply (bool_decide_unpack _).
  - repeat constructor.
  - repeat constructor.
Defined.

(** X20. A dead end is recognised. On a well-formed crossword and store,
    if some unassigned variable that has a neighbor has no candidate left,
    [backtrack] returns failure, given enough fuel, and hands the
    assignment back as it received it: it neither raises nor returns an
    assignment. *)
Theorem backtrack_dead_end c x0 assignment st :
  wf_crossword c → store_ok c st →
  NoDup (PyDict.keys assignment) →
  PyDict.keys assignment ⊆ variables c →
  x0 ∈ variables c → x0 ∉ PyDict.keys assignment →
  neighbors c x0 ≠ [] → st !! x0 = Some [] →
  ∃ fuel0 st', ∀ fuel, fuel0 ≤ fuel →
    backtrack c fuel assignment st = (Return (None, assignment), st').
Proof.
  intros Hwf Hst Hnd Hsub Hx0 Hfresh Hdeg Hempty.
  destruct (backtrack_dead c Hwf x0 Hx0 Hdeg (length (variables c))
              assignment st) as (fuel0 & st' & Hrun & _); [lia|done..|].
  by exists fuel0, st'.
Qed.

Lemma domains8_propagated_store_ok : store_ok crossword8 domains8_propagated.
Proof.
  intros v Hv. simpl in Hv.
  repeat (apply elem_of_cons in Hv as [->|Hv]);
    [| |by apply elem_of_nil in Hv];
    eexists; (split_and!; [by vm_compute|by apply (bool_decide_unpack _)|]);
    repeat constructor.
Qed.

Lemma backtrack_dead_end_witness :
  ∃ fuel0 st', ∀ fuel, fuel0 ≤ fuel →
    backtrack crossword8 fuel [] domains8_propagated
    = (Return (None, []), st').
Proof.
  apply (backtrack_dead_end crossword8 slotB [] domains8_propagated).
  - apply crossword8_wf.
  - apply domains8_propagated_store_ok.
  - apply NoDup_nil_2.
  - by intros v ?%elem_of_nil.
  - by apply (bool_decide_unpack _).
  - apply not_elem_of_nil.
  - vm_compute. discriminate.
  - vm_compute. reflexivity.
Defined.
